(** * A shallow embedding of the AIPoker hand evaluator, betting engine and
    decision boundary (hand_evaluator.py, game.py, player.py,
    ollama_integration.py, deck.py, gui.py), with the properties of the
    specification settled against it. *)

From Stdlib Require Import String Ascii.
From Stdlib Require Import List Arith Lia Bool ZArith Permutation.
Import ListNotations.

(** ** Option monad: a Python exception (IndexError, ValueError) is [None]. *)

Notation "x <- m ;; k" :=
  (match m with Some x => k | None => None end)
  (at level 61, m at next level, right associativity).

(** ** Cards (deck.py) *)

Inductive suit := hearts | diamonds | clubs | spades.

Definition suit_eqb (a b : suit) : bool :=
  match a, b with
  | hearts, hearts | diamonds, diamonds | clubs, clubs | spades, spades => true
  | _, _ => false
  end.

(** A card is the tuple [(rank, suit)], rank in 2..14. *)
Definition card : Type := (nat * suit)%type.

(** ** collections.Counter

    A Counter built from a list iterates its keys in order of first
    occurrence; the value of a key is its number of occurrences. *)

Section Counter.
Context {A : Type} (eqb : A -> A -> bool).

Fixpoint mem (x : A) (l : list A) : bool :=
    match l with
    | [] => false
    | y :: t => eqb x y || mem x t
    end.

Fixpoint uniq_aux (seen : list A) (l : list A) : list A :=
    match l with
    | [] => []
    | x :: t => if mem x seen then uniq_aux seen t else x :: uniq_aux (x :: seen) t
    end.

(** Keys in order of first occurrence. *)
Definition uniq (l : list A) : list A := uniq_aux [] l.

Definition count_of (x : A) (l : list A) : nat :=
    length (filter (eqb x) l).

Definition Counter (l : list A) : list (A * nat) :=
    map (fun x => (x, count_of x l)) (uniq l).

Definition keys (c : list (A * nat)) : list A := map fst c.
Definition values (c : list (A * nat)) : list nat := map snd c.

(** [[k for k, v in c.items() if p v]] *)
Definition keys_where (p : nat -> bool) (c : list (A * nat)) : list A :=
    map fst (filter (fun kv => p (snd kv)) c).
End Counter.

(** ** Sorting and small list helpers on ranks *)

Fixpoint insert_asc (x : nat) (l : list nat) : list nat :=
  match l with
  | [] => [x]
  | y :: t => if x <=? y then x :: y :: t else y :: insert_asc x t
  end.

(** [sorted(l)] *)
Definition sort_asc (l : list nat) : list nat := fold_right insert_asc [] l.

Fixpoint insert_desc (x : nat) (l : list nat) : list nat :=
  match l with
  | [] => [x]
  | y :: t => if y <=? x then x :: y :: t else y :: insert_desc x t
  end.

(** [sorted(l, reverse=True)] *)
Definition sort_desc (l : list nat) : list nat := fold_right insert_desc [] l.

(** [max(l)]: raises ValueError on an empty sequence. *)
Definition py_max (l : list nat) : option nat :=
  match l with
  | [] => None
  | x :: t => Some (fold_left Nat.max t x)
  end.

(** [l[0]]: raises IndexError on an empty list. *)
Definition py_head {A} (l : list A) : option A := hd_error l.

(** [x in l] for ranks. *)
Definition rank_in (x : nat) (l : list nat) : bool := mem Nat.eqb x l.

(** Python slice [l[start:stop:-1]] with integer bounds: negative bounds
    count from the end, and after that adjustment out-of-range bounds are
    clamped to [-1 .. len-1]. *)
Definition slice_bound_neg (len x : Z) : Z :=
  if (x <? 0)%Z then (if (x + len <? 0)%Z then (-1)%Z else (x + len)%Z)
  else if (len <=? x)%Z then (len - 1)%Z else x.

Definition py_slice_rev (l : list nat) (start stop : Z) : list nat :=
  let len := Z.of_nat (length l) in
  let a := slice_bound_neg len start in
  let b := slice_bound_neg len stop in
  map (fun k => nth (Z.to_nat (a - Z.of_nat k)) l 0) (List.seq 0 (Z.to_nat (a - b))).

(** Python list equality on ranks. *)
Fixpoint list_eqb (l1 l2 : list nat) : bool :=
  match l1, l2 with
  | [], [] => true
  | x :: t1, y :: t2 => (x =? y) && list_eqb t1 t2
  | _, _ => false
  end.

(** Python's [l1 < l2] on lists of ints (lexicographic, a proper prefix is
    smaller). *)
Fixpoint py_list_lt (l1 l2 : list nat) : bool :=
  match l1, l2 with
  | _, [] => false
  | [], _ :: _ => true
  | x :: t1, y :: t2 => (x <? y) || ((x =? y) && py_list_lt t1 t2)
  end.

(** ** hand_evaluator.py *)

Definition ranks_of (cs : list card) : list nat := map fst cs.
Definition suits_of (cs : list card) : list suit := map snd cs.

(** [sorted(set(ranks))] *)
Definition unique_ranks (ranks : list nat) : list nat := sort_asc (uniq Nat.eqb ranks).

(** [unique_ranks[i:i+5] == list(range(unique_ranks[i], unique_ranks[i]+5))] *)
Definition window_ok (u : list nat) (i : nat) : bool :=
  list_eqb (firstn 5 (skipn i u)) (List.seq (nth i u 0) 5).

(** [set([14, 2, 3, 4, 5]).issubset(unique_ranks)] *)
Definition has_wheel (u : list nat) : bool :=
  forallb (fun r => rank_in r u) [14; 2; 3; 4; 5].

(** [range(len(unique_ranks) - 4)] *)
Definition windows (u : list nat) : list nat := List.seq 0 (length u - 4).

Definition is_straight (ranks : list nat) : bool :=
  let u := unique_ranks ranks in
  if length u <? 5 then false
  else if existsb (window_ok u) (windows u) then true
  else has_wheel u.

Definition suited_ranks (all_cards : list card) (s : suit) : list nat :=
  map fst (filter (fun c => suit_eqb (snd c) s) all_cards).

Definition is_straight_flush (all_cards : list card) : bool :=
  existsb (fun sc => (5 <=? snd sc) && is_straight (suited_ranks all_cards (fst sc)))
          (Counter suit_eqb (suits_of all_cards)).

Definition is_four_of_a_kind (rank_counts : list (nat * nat)) : bool :=
  mem Nat.eqb 4 (values rank_counts).

Definition is_full_house (rank_counts : list (nat * nat)) : bool :=
  mem Nat.eqb 3 (values rank_counts) && mem Nat.eqb 2 (values rank_counts).

Definition is_flush (suit_counts : list (suit * nat)) : bool :=
  existsb (fun c => 5 <=? c) (values suit_counts).

Definition is_three_of_a_kind (rank_counts : list (nat * nat)) : bool :=
  mem Nat.eqb 3 (values rank_counts).

Definition is_two_pair (rank_counts : list (nat * nat)) : bool :=
  2 <=? count_of Nat.eqb 2 (values rank_counts).

Definition is_one_pair (rank_counts : list (nat * nat)) : bool :=
  mem Nat.eqb 2 (values rank_counts).

Definition get_high_card (ranks : list nat) : list nat := sort_desc ranks.

Definition get_best_straight (ranks : list nat) : list nat :=
  let u := unique_ranks ranks in
  match find (window_ok u) (windows u) with
  | Some i => py_slice_rev u (Z.of_nat i + 4) (Z.of_nat i - 1)
  | None => if has_wheel u then [5; 4; 3; 2; 14] else []
  end.

Definition get_best_four_of_a_kind (rank_counts : list (nat * nat)) : option (list nat) :=
  four_rank <- py_head (keys_where (Nat.eqb 4) rank_counts);;
  kicker <- py_max (filter (fun r => negb (r =? four_rank)) (keys rank_counts));;
  Some [four_rank; kicker].

Definition get_best_full_house (rank_counts : list (nat * nat)) : option (list nat) :=
  three_rank <- py_head (keys_where (Nat.eqb 3) rank_counts);;
  pair_rank <- py_head (keys_where (Nat.eqb 2) rank_counts);;
  Some [three_rank; pair_rank].

Definition get_best_flush (all_cards : list card) : option (list nat) :=
  flush_suit <- py_head (keys_where (fun c => 5 <=? c) (Counter suit_eqb (suits_of all_cards)));;
  Some (firstn 5 (sort_desc (suited_ranks all_cards flush_suit))).

Definition get_best_three_of_a_kind (rank_counts : list (nat * nat)) (all_ranks : list nat)
  : option (list nat) :=
  three_rank <- py_head (keys_where (Nat.eqb 3) rank_counts);;
  Some (three_rank :: firstn 2 (sort_desc (filter (fun r => negb (r =? three_rank)) all_ranks))).

Definition get_best_two_pair (rank_counts : list (nat * nat)) (all_ranks : list nat)
  : option (list nat) :=
  let pairs := firstn 2 (sort_desc (keys_where (Nat.eqb 2) rank_counts)) in
  kicker <- py_max (filter (fun r => negb (rank_in r pairs)) all_ranks);;
  Some (pairs ++ [kicker]).

Definition get_best_one_pair (rank_counts : list (nat * nat)) (all_ranks : list nat)
  : option (list nat) :=
  pair <- py_head (keys_where (Nat.eqb 2) rank_counts);;
  Some (pair :: firstn 3 (sort_desc (filter (fun r => negb (r =? pair)) all_ranks))).

Definition evaluate_hand (hand community_cards : list card) : option (nat * list nat) :=
  let all_cards := hand ++ community_cards in
  let all_ranks := ranks_of all_cards in
  let all_suits := suits_of all_cards in
  let rank_counts := Counter Nat.eqb all_ranks in
  let suit_counts := Counter suit_eqb all_suits in
  if is_straight_flush all_cards then Some (9, get_best_straight all_ranks)
  else if is_four_of_a_kind rank_counts then
    b <- get_best_four_of_a_kind rank_counts;; Some (8, b)
  else if is_full_house rank_counts then
    b <- get_best_full_house rank_counts;; Some (7, b)
  else if is_flush suit_counts then
    b <- get_best_flush all_cards;; Some (6, b)
  else if is_straight all_ranks then Some (5, get_best_straight all_ranks)
  else if is_three_of_a_kind rank_counts then
    b <- get_best_three_of_a_kind rank_counts all_ranks;; Some (4, b)
  else if is_two_pair rank_counts then
    b <- get_best_two_pair rank_counts all_ranks;; Some (3, b)
  else if is_one_pair rank_counts then
    b <- get_best_one_pair rank_counts all_ranks;; Some (2, b)
  else Some (1, get_high_card all_ranks).

(** ** player.py *)

Open Scope Z_scope.

Record player := mkPlayer {
  name : string;
  chips : Z;
  hand : list card;
  current_bet : Z;
  is_active : bool
}.

Definition set_active (p : player) (b : bool) : player :=
  mkPlayer (name p) (chips p) (hand p) (current_bet p) b.
Definition set_hand (p : player) (h : list card) : player :=
  mkPlayer (name p) (chips p) h (current_bet p) (is_active p).
Definition commit (p : player) (amount : Z) : player :=
  mkPlayer (name p) (chips p - amount) (hand p) amount (is_active p).

Section Betting.
(** [random.randint(a, b)]: the value the generator draws, within [[a, b]]. *)
Variable randint : Z -> Z -> Z.
(** The action the decision collaborator ([get_ai_decision]) returns for a
      player's query in this pass. *)
Variable decide : player -> list card -> string.

Definition calculate_bet_amount (p : player) (cur : Z) : Z :=
    let bet_min := Z.max cur 50 in
    let bet_max := Z.min (chips p) (cur + 200) in
    if bet_max <? bet_min then chips p else randint bet_min bet_max.

Definition calculate_raise_amount (p : player) (cur : Z) : Z :=
    if chips p <=? cur * 2 then chips p
    else
      let raise_min := cur * 2 in
      let raise_max := Z.min (chips p) (cur * 3 + 100) in
      if raise_max <? raise_min then chips p else randint raise_min raise_max.

(** [AIPlayer.make_decision]: the updated player and the decision. *)
Definition make_decision (p : player) (community_cards : list card) (cur : Z)
    : player * string :=
    if negb (is_active p) then (p, "fold"%string)
    else
      let decision := decide p community_cards in
      if String.eqb decision "fold" then (set_active p false, decision)
      else if String.eqb decision "check" then (p, decision)
      else if String.eqb decision "bet" then (commit p (calculate_bet_amount p cur), decision)
      else if String.eqb decision "raise" then (commit p (calculate_raise_amount p cur), decision)
      else (set_active p false, decision).

(** The loop of [PokerGame.betting_round]: [cur] is the local
      [current_bet], the result is the players and the pot. *)
Fixpoint betting_pass (community_cards : list card) (cur pot : Z) (ps : list player)
    : list player * Z :=
    match ps with
    | [] => ([], pot)
    | p :: rest =>
      if is_active p then
        let p' := fst (make_decision p community_cards cur) in
        let cur' := if cur <? current_bet p' then current_bet p' else cur in
        let pot' := pot + current_bet p' in
        let (rest', pot'') := betting_pass community_cards cur' pot' rest in
        (p' :: rest', pot'')
      else
        let (rest', pot') := betting_pass community_cards cur pot rest in
        (p :: rest', pot')
    end.
End Betting.

Definition reset_for_next_round (p : player) : player :=
  mkPlayer (name p) (chips p) [] 0 true.

(** [p'] is [p] after [deal_hand] with two cards. *)
Definition dealt (p p' : player) : Prop :=
  exists h, p' = set_hand p h /\ length h = 2%nat.

(** ** deck.py *)

Definition full_deck : list card :=
  flat_map (fun r => map (fun s => (r, s)) [hearts; diamonds; clubs; spades])
           (List.seq 2 13).

(** [self.cards.pop()]: the last card; IndexError on an empty deck. *)
Definition pop (cards : list card) : option (card * list card) :=
  match rev cards with
  | [] => None
  | c :: r => Some (c, rev r)
  end.

(** [[self.cards.pop() for _ in range(n)]] *)
Fixpoint deal_cards (n : nat) (cards : list card) : option (list card * list card) :=
  match n with
  | O => Some ([], cards)
  | S k =>
    x <- pop cards;;
    let (c, cards') := x in
    y <- deal_cards k cards';;
    let (cs, cards'') := y in
    Some (c :: cs, cards'')
  end.

(** ** game.py *)

Record game := mkGame {
  num_players : nat;
  players : list player;
  deck : list card;
  community : list card;
  pot : Z;
  dealer_position : nat
}.

Section Game.
Variable randint : Z -> Z -> Z.
Variable decide : player -> list card -> string.
(** [random.shuffle] on the deck. *)
Variable shuffle : list card -> list card.

Definition betting_round (g : game) : game :=
    let (ps, pot') := betting_pass randint decide (community g) 0 (pot g) (players g) in
    mkGame (num_players g) ps (deck g) (community g) pot' (dealer_position g).

(** [player.deal_hand(self.deck.deal_hand())] for every player in order. *)
Fixpoint deal_hole_cards (ps : list player) (cards : list card)
    : option (list player * list card) :=
    match ps with
    | [] => Some ([], cards)
    | p :: rest =>
      x <- deal_cards 2 cards;;
      let (h, cards') := x in
      y <- deal_hole_cards rest cards';;
      let (rest', cards'') := y in
      Some (set_hand p h :: rest', cards'')
    end.

(** [play_pre_flop] up to the betting round: reset the deck, clear the
      community cards and the pot, rotate the dealer, deal hole cards
      (a ZeroDivisionError when there are no players). *)
Definition pre_flop_deal (g : game) : option game :=
    if (num_players g =? 0)%nat then None
    else
      let dealer := ((dealer_position g + 1) mod num_players g)%nat in
      x <- deal_hole_cards (players g) (shuffle full_deck);;
      let (ps, cards) := x in
      Some (mkGame (num_players g) ps cards [] 0 dealer).

Definition play_pre_flop (g : game) : option game :=
    g' <- pre_flop_deal g;; Some (betting_round g').

(** [PokerGUI.reset_game_for_next_round] on the game it drives. *)
Definition reset_game_for_next_round (g : game) : game :=
    mkGame (num_players g) (map reset_for_next_round (players g)) (shuffle full_deck) [] 0
           (dealer_position g).

(** [play_flop]: [self.community_cards = self.deck.deal_flop()], then the
      flop betting round. *)
Definition play_flop (g : game) : option game :=
    x <- deal_cards 3 (deck g);;
    let (flop, cards) := x in
    Some (betting_round (mkGame (num_players g) (players g) cards flop (pot g)
                                (dealer_position g))).

(** [play_turn]: [turn = self.deck.deal_turn()], appended to the community
      cards, then the turn betting round. *)
Definition play_turn (g : game) : option game :=
    x <- pop (deck g);;
    let (turn, cards) := x in
    Some (betting_round (mkGame (num_players g) (players g) cards (community g ++ [turn])
                                (pot g) (dealer_position g))).

(** [play_river]: [river = self.deck.deal_river()], appended, then the river
      betting round. *)
Definition play_river (g : game) : option game :=
    x <- pop (deck g);;
    let (river, cards) := x in
    Some (betting_round (mkGame (num_players g) (players g) cards (community g ++ [river])
                                (pot g) (dealer_position g))).

(** [PokerGUI.advance_game_stage] at stages 0, 1, 2 and 3: pre-flop, flop,
      turn and river, each called whatever the previous stage left (the
      early [return]s of [play_*] end only the function itself). *)
Definition play_streets (g : game) : option game :=
    g1 <- play_pre_flop g;;
    g2 <- play_flop g1;;
    g3 <- play_turn g2;;
    play_river g3.
End Game.

Definition any_active_players (g : game) : bool := existsb is_active (players g).

(** [determine_winner]'s loop over the active players. The second result
    lists, in order, the players whose hands were passed to
    [evaluate_hand]. *)
Fixpoint showdown_scan (community_cards : list card)
    (best : option (nat * list nat * player)) (ps : list player)
  : option (option (nat * list nat * player) * list string) :=
  match ps with
  | [] => Some (best, [])
  | p :: rest =>
    r <- evaluate_hand (hand p) community_cards;;
    let (hand_value, best_ranks) := r in
    let best' :=
      match best with
      | None => Some (hand_value, best_ranks, p)
      | Some (bv, bb, bp) =>
        if (bv <? hand_value)%nat then Some (hand_value, best_ranks, p)
        else if (hand_value =? bv)%nat && py_list_lt bb best_ranks
        then Some (hand_value, best_ranks, p)
        else best
      end in
    res <- showdown_scan community_cards best' rest;;
    let (b, evaluated) := res in
    Some (b, name p :: evaluated)
  end.

Definition determine_winner (g : game) : option (option player * list string) :=
  let active_players := filter is_active (players g) in
  if (length active_players =? 0)%nat then Some (None, [])
  else
    res <- showdown_scan (community g) None active_players;;
    let (best, evaluated) := res in
    Some (option_map (fun b => snd b) best, evaluated).

Close Scope Z_scope.

(** [describe_hand_value] *)
Definition describe_hand_value (hand_value : nat) : string :=
  if 8 <=? hand_value then "Straight Flush"
  else if hand_value =? 7 then "Four of a Kind"
  else if hand_value =? 6 then "Full House"
  else if hand_value =? 5 then "Flush"
  else if hand_value =? 4 then "Straight"
  else if hand_value =? 3 then "Three of a Kind"
  else if hand_value =? 2 then "Two Pair"
  else if hand_value =? 1 then "One Pair"
  else "High Card".

(** The hand type of each value [evaluate_hand] returns, read off the
    predicate of its branch: [is_straight_flush] gives 9,
    [is_four_of_a_kind] 8, [is_full_house] 7, [is_flush] 6, [is_straight] 5,
    [is_three_of_a_kind] 4, [is_two_pair] 3, [is_one_pair] 2 and the high
    card 1. *)
Definition evaluated_hand_type (hand_value : nat) : string :=
  match hand_value with
  | 9 => "Straight Flush"
  | 8 => "Four of a Kind"
  | 7 => "Full House"
  | 6 => "Flush"
  | 5 => "Straight"
  | 4 => "Three of a Kind"
  | 3 => "Two Pair"
  | 2 => "One Pair"
  | _ => "High Card"
  end%string.

(** [determine_winner]'s return value [(best_player, winning_hand)]:
    [(None, "No winner")] without active players, otherwise the best player
    and [describe_hand_value] of its hand value. *)
Definition determine_winner_result (g : game) : option (option player * string) :=
  let active_players := filter is_active (players g) in
  if length active_players =? 0 then Some (None, "No winner"%string)
  else
    res <- showdown_scan (community g) None active_players;;
    let (best, _) := res in
    Some (option_map (fun b => snd b) best,
          match best with
          | Some (v, _, _) => describe_hand_value v
          | None => ""%string
          end).

(** ** ollama_integration.py: the decision boundary

    Strings are ASCII ([String.string]); the regular expression
    [\b(fold|check|bet|raise)\b] is searched with Python's [re.search]
    semantics: the leftmost position where it matches, alternatives tried in
    order. A word character is a letter, a digit or an underscore. *)

Definition word_char (c : ascii) : bool :=
  let n := nat_of_ascii c in
  ((48 <=? n) && (n <=? 57)) || ((65 <=? n) && (n <=? 90)) ||
  ((97 <=? n) && (n <=? 122)) || (n =? 95).

(** [str.lower] on ASCII. *)
Definition lower_char (c : ascii) : ascii :=
  let n := nat_of_ascii c in
  if (65 <=? n) && (n <=? 90) then ascii_of_nat (n + 32) else c.

Fixpoint lower (s : string) : string :=
  match s with
  | EmptyString => EmptyString
  | String c t => String (lower_char c) (lower t)
  end.

(** [str.strip]: ASCII whitespace (space, \t, \n, \v, \f, \r). *)
Definition is_space (c : ascii) : bool :=
  let n := nat_of_ascii c in ((9 <=? n) && (n <=? 13)) || (n =? 32).

Fixpoint lstrip (l : list ascii) : list ascii :=
  match l with
  | c :: t => if is_space c then lstrip t else l
  | [] => []
  end.

Definition strip (s : string) : string :=
  string_of_list_ascii (rev (lstrip (rev (lstrip (list_ascii_of_string s))))).

Definition keywords : list string := ["fold"; "check"; "bet"; "raise"]%string.

Fixpoint prefixb (k l : list ascii) : bool :=
  match k, l with
  | [], _ => true
  | a :: k', b :: l' => Ascii.eqb a b && prefixb k' l'
  | _ :: _, [] => false
  end.

(** [\b] after a keyword (whose last character is a letter). *)
Definition boundary_after (rest : list ascii) : bool :=
  match rest with
  | [] => true
  | c :: _ => negb (word_char c)
  end.

(** The alternation [(fold|check|bet|raise)\b] tried at the start of [l]. *)
Definition match_here (l : list ascii) : option string :=
  find (fun k => prefixb (list_ascii_of_string k) l &&
                 boundary_after (skipn (length (list_ascii_of_string k)) l)) keywords.

(** [re.search]: [prev_word] tells whether the character before [l] is a
    word character ([false] at the start of the string). The leading [\b]
    holds before a keyword iff that character is not a word character. *)
Fixpoint regex_search (prev_word : bool) (l : list ascii) : option string :=
  match l with
  | [] => None
  | c :: t =>
    match (if prev_word then None else match_here l) with
    | Some k => Some k
    | None => regex_search (word_char c) t
    end
  end.

Definition sanitize_decision (decision : string) : string :=
  match regex_search false (list_ascii_of_string (lower decision)) with
  | Some action => action
  | None => "check"%string
  end.

Definition valid_action (a : string) : bool :=
  existsb (String.eqb a) keywords.

(** One HTTP attempt: a [requests] exception, or a response whose
    [message.content] is the given text ([""] when absent). *)
Inductive transport := RequestError | Response (content : string).

(** The retry loop of [get_ai_decision]; [attempt k] is the outcome of the
    [k]-th POST. *)
Fixpoint retry_loop (attempt : nat -> transport) (k n : nat) : string :=
  match n with
  | O => "fold"%string
  | S n' =>
    match attempt k with
    | RequestError => "fold"%string
    | Response content =>
      let decision := lower (strip content) in
      let valid := sanitize_decision decision in
      if valid_action valid then valid else retry_loop attempt (S k) n'
    end
  end.

Definition get_ai_decision (attempt : nat -> transport) (max_retries : nat) : string :=
  retry_loop attempt 0 max_retries.

(** The boundary as the specification words it: the first occurrence, as a
    substring, of one of the four keywords in the lower-cased text. *)
Fixpoint first_keyword_substring (l : list ascii) : option string :=
  match l with
  | [] => None
  | _ :: t =>
    match find (fun k => prefixb (list_ascii_of_string k) l) keywords with
    | Some k => Some k
    | None => first_keyword_substring t
    end
  end.

Definition spec_boundary (decision : string) : string :=
  match first_keyword_substring (list_ascii_of_string (lower decision)) with
  | Some action => action
  | None => "check"%string
  end.

(** A whole-word occurrence of keyword [k] at position [i] of [l]. *)
Definition boundary_before (prev_word : bool) (l : list ascii) (i : nat) : bool :=
  match i with
  | O => negb prev_word
  | S j => negb (word_char (nth j l "0"%char))
  end.

Definition whole_word_at (prev_word : bool) (l : list ascii) (i : nat) (k : string) : bool :=
  boundary_before prev_word l i && prefixb (list_ascii_of_string k) (skipn i l) &&
  boundary_after (skipn (i + length (list_ascii_of_string k)) l).

(** ** ollama_integration.py: choosing a model *)

(** [requests.get(OLLAMA_LIST_URL)]: an exception, or a response with its
    status code and the [name] of each entry of [models]. *)
Inductive models_response := ModelsRequestError | ModelsReply (status_code : nat) (names : list string).

Definition get_available_models (r : models_response) : list string :=
  match r with
  | ModelsRequestError => []
  | ModelsReply status_code names => if status_code =? 200 then names else []
  end.

Fixpoint contains_list (needle hay : list ascii) : bool :=
  prefixb needle hay ||
  match hay with
  | [] => false
  | _ :: t => contains_list needle t
  end.

(** [needle in hay] on strings. *)
Definition contains (needle hay : string) : bool :=
  contains_list (list_ascii_of_string needle) (list_ascii_of_string hay).

Definition poker_model (model : string) : bool :=
  contains "llama3" model || contains "command-r" model || contains "qwen" model.

Definition get_poker_compatible_model (r : models_response) : string :=
  match find poker_model (get_available_models r) with
  | Some model => model
  | None => "llama3:latest"%string
  end.

(** ** Game states used below *)

(** A flop pass: both players bet 100 pre-flop (pot 200) and now check. *)
Definition flop_after_two_bets : game :=
  mkGame 2
    [mkPlayer "AI Player 1" 900 [(2, hearts); (3, clubs)] 100 true;
     mkPlayer "AI Player 2" 900 [(5, hearts); (9, clubs)] 100 true]
    [] [(7, spades); (8, spades); (12, diamonds)] 200 0.

(** Four players, three of whom folded pre-flop; the river is out. *)
Definition one_left_at_showdown : game :=
  mkGame 4
    [mkPlayer "AI Player 1" 950 [(2, hearts); (7, clubs)] 50 false;
     mkPlayer "AI Player 2" 1000 [(4, spades); (9, diamonds)] 0 false;
     mkPlayer "AI Player 3" 1000 [(6, clubs); (6, diamonds)] 0 false;
     mkPlayer "AI Player 4" 900 [(14, hearts); (13, spades)] 100 true]
    [] [(3, clubs); (8, hearts); (10, spades); (11, diamonds); (5, clubs)] 150 1.

(** The table at the end of a round: player 2 folded. *)
Definition after_round_with_fold : game :=
  mkGame 2
    [mkPlayer "AI Player 1" 900 [(2, hearts); (3, clubs)] 100 true;
     mkPlayer "AI Player 2" 950 [(5, hearts); (9, clubs)] 50 false]
    [] [(7, spades); (8, spades); (12, diamonds); (4, hearts); (13, clubs)] 150 0.

(** ** Facts about the Counter model *)

Section CounterFacts.
Context {A : Type} (eqb : A -> A -> bool).
Hypothesis eqb_true : forall x y, eqb x y = true <-> x = y.

Lemma mem_In (x : A) (l : list A) : mem eqb x l = true <-> In x l.
  Proof.
    induction l as [|y t IH]; simpl; [split; [discriminate | tauto]|].
    rewrite orb_true_iff, IH, eqb_true. split; intros [H|H]; auto.
  Qed.

Lemma uniq_aux_spec (l seen : list A) :
    NoDup (uniq_aux eqb seen l) /\
    (forall x, In x (uniq_aux eqb seen l) <-> In x l /\ ~ In x seen).
  Proof.
    revert seen; induction l as [|y t IH]; intros seen; simpl.
    - split; [constructor | tauto].
    - destruct (mem eqb y seen) eqn:Hm.
      + apply mem_In in Hm. destruct (IH seen) as [Hnd Hin]. split; [exact Hnd|].
        intros x; rewrite Hin; split; [tauto|].
        intros [[<-|Hx] Hns]; [contradiction | auto].
      + assert (Hy : ~ In y seen) by (rewrite <- mem_In, Hm; discriminate).
        destruct (IH (y :: seen)) as [Hnd Hin]. split.
        * constructor; [rewrite Hin; simpl; tauto | exact Hnd].
        * intros x; simpl; rewrite Hin; simpl.
          split; [intros [<-|[Hx Hn]]; auto | ].
          intros [[<-|Hx] Hns]; [auto|].
          destruct (eqb y x) eqn:E; [left; apply eqb_true; exact E|].
          right; split; [exact Hx|]. intros [<-|H]; [|tauto].
          assert (eqb y y = true) by (apply eqb_true; reflexivity). congruence.
  Qed.

Lemma uniq_NoDup (l : list A) : NoDup (uniq eqb l).
  Proof. apply (uniq_aux_spec l []). Qed.

Lemma In_uniq (x : A) (l : list A) : In x (uniq eqb l) <-> In x l.
  Proof. destruct (uniq_aux_spec l []) as [_ H]. rewrite H; simpl; tauto. Qed.

Lemma keys_Counter (l : list A) : keys (Counter eqb l) = uniq eqb l.
  Proof. unfold keys, Counter. rewrite map_map. apply map_id. Qed.

Lemma In_Counter (k : A) (v : nat) (l : list A) :
    In (k, v) (Counter eqb l) -> In k l /\ v = count_of eqb k l.
  Proof.
    unfold Counter; rewrite in_map_iff. intros [x [Heq Hx]]. injection Heq as <- <-.
    split; [apply In_uniq; exact Hx | reflexivity].
  Qed.

Lemma In_keys_where (p : nat -> bool) (k : A) (l : list A) :
    In k (keys_where p (Counter eqb l)) <-> In k l /\ p (count_of eqb k l) = true.
  Proof.
    unfold keys_where, Counter. rewrite in_map_iff. split.
    - intros [[k' v] [Hk Hx]]. simpl in Hk; subst k'. rewrite filter_In, in_map_iff in Hx.
      destruct Hx as [[y [Hy Hyin]] Hp]. injection Hy as <- <-.
      simpl in Hp. split; [apply In_uniq | ]; assumption.
    - intros [Hk Hp]. exists (k, count_of eqb k l). split; [reflexivity|].
      rewrite filter_In, in_map_iff. split; [|exact Hp].
      exists k; split; [reflexivity | apply In_uniq; exact Hk].
  Qed.

Lemma keys_where_Counter (p : nat -> bool) (l : list A) :
    keys_where p (Counter eqb l) = filter (fun k => p (count_of eqb k l)) (uniq eqb l).
  Proof.
    unfold keys_where, Counter. induction (uniq eqb l) as [|x u IH]; simpl; [reflexivity|].
    destruct (p (count_of eqb x l)); simpl; congruence.
  Qed.

Lemma keys_where_NoDup (p : nat -> bool) (l : list A) : NoDup (keys_where p (Counter eqb l)).
  Proof. rewrite keys_where_Counter. apply NoDup_filter, uniq_NoDup. Qed.

Lemma count_of_cons (x y : A) (l : list A) :
    count_of eqb x (y :: l) = (if eqb x y then 1 else 0) + count_of eqb x l.
  Proof. unfold count_of; simpl; destruct (eqb x y); reflexivity. Qed.

Lemma sum_indicator (x : A) (P : list A) :
    NoDup P -> In x P -> list_sum (map (fun p => if eqb p x then 1 else 0) P) = 1.
  Proof.
    induction P as [|q P IH]; simpl; [tauto|]. intros Hnd Hin. inversion Hnd; subst.
    destruct (eqb q x) eqn:E.
    - apply eqb_true in E; subst q.
      assert (Hz : forall P', ~ In x P' ->
                list_sum (map (fun p => if eqb p x then 1 else 0) P') = 0).
      { induction P' as [|r P' IH']; simpl; [reflexivity|]. intros Hn.
        destruct (eqb r x) eqn:Er; [apply eqb_true in Er; subst; tauto|].
        apply IH'; tauto. }
      rewrite Hz; auto.
    - destruct Hin as [<-|Hin]; [|apply IH; auto].
      assert (eqb q q = true) by (apply eqb_true; reflexivity). congruence.
  Qed.

(** Counting by keys: when [P] lists every element of [l] once, the
      counts over [P] add up to the length of [l]. *)
Lemma length_as_counts (l P : list A) :
    NoDup P -> (forall x, In x l -> In x P) ->
    length l = list_sum (map (fun p => count_of eqb p l) P).
  Proof.
    intros Hnd. induction l as [|y t IH]; intros Hall.
    - simpl. unfold count_of; simpl. clear Hnd Hall. induction P; simpl; auto.
    - simpl. rewrite IH by (intros; apply Hall; simpl; auto).
      assert (Hs : list_sum (map (fun p => count_of eqb p (y :: t)) P) =
                   list_sum (map (fun p => if eqb p y then 1 else 0) P) +
                   list_sum (map (fun p => count_of eqb p t) P)).
      { clear IH Hall Hnd. induction P as [|q P IHP]; simpl; [reflexivity|].
        rewrite count_of_cons, IHP. lia. }
      rewrite Hs, sum_indicator; auto. apply Hall; simpl; auto.
  Qed.
End CounterFacts.

Lemma Nat_eqb_true (x y : nat) : Nat.eqb x y = true <-> x = y.
Proof. apply Nat.eqb_eq. Qed.

Lemma suit_eqb_true (x y : suit) : suit_eqb x y = true <-> x = y.
Proof. destruct x, y; simpl; split; congruence. Qed.

(** [n in c.values()] yields a key [c.items()] filter can return. *)
Lemma keys_where_nonempty {A} (c : list (A * nat)) (p : nat -> bool) :
  existsb p (values c) = true -> keys_where p c <> [].
Proof.
  induction c as [|[k v] c IH]; simpl; [discriminate|].
  unfold keys_where; simpl. destruct (p v); simpl; [discriminate|].
  apply IH.
Qed.

Lemma mem_existsb (n : nat) (l : list nat) : mem Nat.eqb n l = existsb (Nat.eqb n) l.
Proof. induction l; simpl; congruence. Qed.

Lemma py_head_nonempty {A} (l : list A) : l <> [] -> exists x, py_head l = Some x.
Proof. destruct l; simpl; [congruence | eauto]. Qed.

Lemma py_max_nonempty (l : list nat) : l <> [] -> exists x, py_max l = Some x.
Proof. destruct l; simpl; [congruence | eauto]. Qed.

Lemma filter_nil_forall {A} (f : A -> bool) (l : list A) :
  filter f l = [] -> forall x, In x l -> f x = false.
Proof.
  intros H x Hx. destruct (f x) eqn:E; [|reflexivity].
  assert (In x (filter f l)) by (apply filter_In; auto). rewrite H in *; contradiction.
Qed.

Lemma count_values_keys_where {A} (n : nat) (c : list (A * nat)) :
  count_of Nat.eqb n (values c) = length (keys_where (Nat.eqb n) c).
Proof.
  induction c as [|[k v] c IH]; [reflexivity|].
  unfold count_of, keys_where, values in *; simpl. destruct (n =? v); simpl; congruence.
Qed.

Lemma insert_desc_perm (x : nat) (l : list nat) : Permutation (insert_desc x l) (x :: l).
Proof.
  induction l as [|y t IH]; simpl; [reflexivity|].
  destruct (y <=? x); [reflexivity|].
  transitivity (y :: x :: t); [constructor; exact IH | constructor].
Qed.

Lemma sort_desc_perm (l : list nat) : Permutation (sort_desc l) l.
Proof.
  induction l as [|x t IH]; simpl; [reflexivity|].
  rewrite insert_desc_perm. constructor; exact IH.
Qed.

Lemma In_firstn {A} (n : nat) (x : A) (l : list A) : In x (firstn n l) -> In x l.
Proof. intros H. rewrite <- (firstn_skipn n l). apply in_or_app; auto. Qed.

Lemma NoDup_firstn' {A} (n : nat) (l : list A) : NoDup l -> NoDup (firstn n l).
Proof. intros H. rewrite <- (firstn_skipn n l) in H. eapply NoDup_app_remove_r; eauto. Qed.

(** The kicker of [get_best_four_of_a_kind] exists unless the cards are
    exactly the four cards of the quad. *)
Lemma get_best_four_of_a_kind_total (l : list nat) :
  is_four_of_a_kind (Counter Nat.eqb l) = true -> length l <> 4 ->
  get_best_four_of_a_kind (Counter Nat.eqb l) <> None.
Proof.
  unfold is_four_of_a_kind, get_best_four_of_a_kind. intros H4 Hlen.
  rewrite mem_existsb in H4. apply keys_where_nonempty in H4.
  destruct (keys_where (Nat.eqb 4) (Counter Nat.eqb l)) as [|r rs] eqn:Ek; [congruence|].
  simpl.
  assert (Hr : In r l /\ Nat.eqb 4 (count_of Nat.eqb r l) = true).
  { apply (In_keys_where Nat.eqb Nat_eqb_true). rewrite Ek; left; reflexivity. }
  destruct (filter (fun x => negb (x =? r)) (keys (Counter Nat.eqb l))) eqn:Ef;
    [|simpl; discriminate].
  exfalso. apply Hlen. rewrite keys_Counter in Ef.
  pose proof (filter_nil_forall _ _ Ef) as Hall.
  rewrite (length_as_counts Nat.eqb Nat_eqb_true l [r]).
  - simpl. destruct Hr as [_ Hr]. apply Nat.eqb_eq in Hr. lia.
  - repeat constructor; simpl; tauto.
  - intros x Hx. apply (In_uniq Nat.eqb Nat_eqb_true) in Hx.
    specialize (Hall x Hx). apply negb_false_iff, Nat.eqb_eq in Hall. left; auto.
Qed.

(** The kicker of [get_best_two_pair] exists unless the cards are exactly
    the four cards of the two pairs. *)
Lemma get_best_two_pair_total (l : list nat) :
  is_two_pair (Counter Nat.eqb l) = true -> length l <> 4 ->
  get_best_two_pair (Counter Nat.eqb l) l <> None.
Proof.
  unfold is_two_pair, get_best_two_pair. intros H2 Hlen.
  rewrite count_values_keys_where in H2. apply Nat.leb_le in H2.
  set (K := keys_where (Nat.eqb 2) (Counter Nat.eqb l)) in *.
  set (pairs := firstn 2 (sort_desc K)).
  destruct (filter (fun r => negb (rank_in r pairs)) l) eqn:Ef; [|simpl; discriminate].
  exfalso. apply Hlen.
  assert (Hlp : length pairs = 2).
  { unfold pairs. rewrite length_firstn, (Permutation_length (sort_desc_perm K)). lia. }
  assert (Hnd : NoDup pairs).
  { apply NoDup_firstn', (Permutation_NoDup (Permutation_sym (sort_desc_perm K))).
    apply keys_where_NoDup, Nat_eqb_true. }
  assert (Hcnt : forall p, In p pairs -> count_of Nat.eqb p l = 2).
  { intros p Hp. apply In_firstn, (Permutation_in _ (sort_desc_perm K)) in Hp.
    apply (In_keys_where Nat.eqb Nat_eqb_true) in Hp. destruct Hp as [_ Hp].
    symmetry. apply Nat.eqb_eq; exact Hp. }
  rewrite (length_as_counts Nat.eqb Nat_eqb_true l pairs Hnd).
  - destruct pairs as [|a [|b [|c t]]]; simpl in Hlp; try discriminate.
    simpl. rewrite (Hcnt a), (Hcnt b); simpl; auto.
  - intros x Hx. pose proof (filter_nil_forall _ _ Ef x Hx) as Hn.
    apply negb_false_iff in Hn. apply (mem_In Nat.eqb Nat_eqb_true) in Hn. exact Hn.
Qed.

(** Every branch of [evaluate_hand] returns, unless the combined cards are
    exactly four. *)
Lemma evaluate_hand_total_len (hand community_cards : list card) :
  length (hand ++ community_cards) <> 4 -> evaluate_hand hand community_cards <> None.
Proof.
  intros Hlen. unfold evaluate_hand.
  set (all := hand ++ community_cards) in *.
  assert (Hr : length (ranks_of all) <> 4) by (unfold ranks_of; rewrite length_map; exact Hlen).
  set (rs := ranks_of all) in *.
  destruct (is_straight_flush all); [discriminate|].
  destruct (is_four_of_a_kind (Counter Nat.eqb rs)) eqn:E4.
  { destruct (get_best_four_of_a_kind (Counter Nat.eqb rs)) eqn:G; [discriminate|].
    exfalso; eapply get_best_four_of_a_kind_total; eauto. }
  destruct (is_full_house (Counter Nat.eqb rs)) eqn:E7.
  { unfold is_full_house in E7. apply andb_true_iff in E7. destruct E7 as [E3 E2].
    rewrite mem_existsb in E3, E2.
    unfold get_best_full_house.
    destruct (py_head (keys_where (Nat.eqb 3) (Counter Nat.eqb rs))) eqn:G3.
    2:{ apply keys_where_nonempty in E3. destruct (keys_where _ _); simpl in G3; congruence. }
    destruct (py_head (keys_where (Nat.eqb 2) (Counter Nat.eqb rs))) eqn:G2.
    2:{ apply keys_where_nonempty in E2. destruct (keys_where _ _); simpl in G2; congruence. }
    discriminate. }
  destruct (is_flush (Counter suit_eqb (suits_of all))) eqn:E6.
  { unfold get_best_flush. unfold is_flush in E6. apply keys_where_nonempty in E6.
    destruct (keys_where _ (Counter suit_eqb (suits_of all))); [congruence|]. discriminate. }
  destruct (is_straight rs); [discriminate|].
  destruct (is_three_of_a_kind (Counter Nat.eqb rs)) eqn:E3.
  { unfold get_best_three_of_a_kind. unfold is_three_of_a_kind in E3.
    rewrite mem_existsb in E3. apply keys_where_nonempty in E3.
    destruct (keys_where (Nat.eqb 3) _); [congruence|]. discriminate. }
  destruct (is_two_pair (Counter Nat.eqb rs)) eqn:E2.
  { destruct (get_best_two_pair (Counter Nat.eqb rs) rs) eqn:G; [discriminate|].
    exfalso; eapply get_best_two_pair_total; eauto. }
  destruct (is_one_pair (Counter Nat.eqb rs)) eqn:E1.
  { unfold get_best_one_pair. unfold is_one_pair in E1.
    rewrite mem_existsb in E1. apply keys_where_nonempty in E1.
    destruct (keys_where (Nat.eqb 2) _); [congruence|]. discriminate. }
  discriminate.
Qed.


(** ** Dealing *)

Lemma pop_some (cards : list card) :
  (1 <= length cards)%nat -> exists c r, pop cards = Some (c, r) /\ length r = (length cards - 1)%nat.
Proof.
  unfold pop. intros H. pose proof (length_rev cards) as Hl.
  destruct (rev cards) as [|c r]; simpl in Hl; [lia|].
  exists c, (rev r). split; [reflexivity|]. rewrite length_rev. lia.
Qed.

Lemma deal_cards_some (n : nat) (cards : list card) :
  (n <= length cards)%nat ->
  exists cs r, deal_cards n cards = Some (cs, r) /\ length cs = n /\
               length r = (length cards - n)%nat.
Proof.
  revert cards; induction n as [|n IH]; intros cards H; simpl.
  - exists [], cards. repeat split. lia.
  - destruct (pop_some cards) as [c [r [Hp Hr]]]; [lia|]. rewrite Hp.
    destruct (IH r) as [cs [r' [Hd [Hcs Hr']]]]; [lia|]. rewrite Hd.
    exists (c :: cs), r'. repeat split; simpl; lia.
Qed.

Lemma deal_cards_length (n : nat) (cards cs r : list card) :
  deal_cards n cards = Some (cs, r) -> length cs = n.
Proof.
  revert cards cs r; induction n as [|n IH]; intros cards cs r H; simpl in H.
  - injection H as <- <-. reflexivity.
  - destruct (pop cards) as [[c c1]|]; [|discriminate].
    destruct (deal_cards n c1) as [[cs' r']|] eqn:E; [|discriminate].
    injection H as <- <-. simpl. f_equal. eapply IH; eauto.
Qed.

Lemma deal_hole_cards_some (ps : list player) (cards : list card) :
  (2 * length ps <= length cards)%nat ->
  exists ps' r, deal_hole_cards ps cards = Some (ps', r).
Proof.
  revert cards; induction ps as [|p ps IH]; intros cards H; cbn [deal_hole_cards length] in *.
  - eauto.
  - destruct (deal_cards_some 2 cards) as [cs [r [Hd [_ Hr]]]]; [lia|]. rewrite Hd.
    destruct (IH r) as [ps' [r' Hd']]; [lia|]. rewrite Hd'. eauto.
Qed.

Lemma deal_hole_cards_dealt (ps ps' : list player) (cards r : list card) :
  deal_hole_cards ps cards = Some (ps', r) -> Forall2 dealt ps ps'.
Proof.
  revert cards ps' r; induction ps as [|p ps IH]; intros cards ps' r H;
    cbn [deal_hole_cards] in H.
  - injection H as <- <-. constructor.
  - destruct (deal_cards 2 cards) as [[h c1]|] eqn:Ed; [|discriminate].
    destruct (deal_hole_cards ps c1) as [[ps1 r1]|] eqn:E; [|discriminate].
    injection H as <- <-. constructor.
    + exists h. split; [reflexivity | eapply deal_cards_length; eauto].
    + eapply IH; eauto.
Qed.

Lemma pop_app (cards : list card) (c : card) (r : list card) :
  pop cards = Some (c, r) -> cards = r ++ [c].
Proof.
  unfold pop. destruct (rev cards) as [|c' r'] eqn:E; [discriminate|].
  intros H; injection H as <- <-. rewrite <- (rev_involutive cards), E. reflexivity.
Qed.

Lemma deal_cards_app (n : nat) (cards cs r : list card) :
  deal_cards n cards = Some (cs, r) -> cards = r ++ rev cs.
Proof.
  revert cards cs r; induction n as [|n IH]; intros cards cs r H; simpl in H.
  - injection H as <- <-. rewrite app_nil_r. reflexivity.
  - destruct (pop cards) as [[c c1]|] eqn:Ep; [|discriminate].
    destruct (deal_cards n c1) as [[cs' r']|] eqn:E; [|discriminate].
    injection H as <- <-. rewrite (pop_app _ _ _ Ep), (IH _ _ _ E). simpl.
    rewrite app_assoc. reflexivity.
Qed.

Lemma deal_hole_cards_app (ps ps' : list player) (cards r : list card) :
  deal_hole_cards ps cards = Some (ps', r) ->
  cards = r ++ rev (concat (map hand ps')).
Proof.
  revert cards ps' r; induction ps as [|p ps IH]; intros cards ps' r H;
    cbn [deal_hole_cards] in H.
  - injection H as <- <-. simpl. rewrite app_nil_r. reflexivity.
  - destruct (deal_cards 2 cards) as [[h c1]|] eqn:Ed; [|discriminate].
    destruct (deal_hole_cards ps c1) as [[ps1 r1]|] eqn:E; [|discriminate].
    injection H as <- <-. rewrite (deal_cards_app _ _ _ _ Ed), (IH _ _ _ E).
    simpl. rewrite rev_app_distr, app_assoc. reflexivity.
Qed.

Lemma betting_round_deck (randint : Z -> Z -> Z) (decide : player -> list card -> string)
  (g : game) :
  deck (betting_round randint decide g) = deck g /\
  map hand (players (betting_round randint decide g)) = map hand (players g).
Proof.
  unfold betting_round.
  assert (H : forall cc cur pot ps,
    map hand (fst (betting_pass randint decide cc cur pot ps)) = map hand ps).
  { intros cc cur pot ps. revert cur pot.
    induction ps as [|p ps IH]; intros cur pot; simpl; [reflexivity|].
    destruct (is_active p).
    - match goal with |- context [betting_pass ?a ?b ?c ?d ?e ps] =>
        specialize (IH d e); destruct (betting_pass a b c d e ps) end.
      simpl in *. rewrite IH. f_equal.
      unfold make_decision. destruct (negb (is_active p)); [reflexivity|].
      repeat match goal with |- context [if ?b then _ else _] => destruct b end; reflexivity.
    - specialize (IH cur pot). destruct (betting_pass randint decide cc cur pot ps).
      simpl in *. rewrite IH. reflexivity. }
  specialize (H (community g) 0%Z (pot g) (players g)).
  destruct (betting_pass randint decide (community g) 0%Z (pot g) (players g)).
  simpl in *. auto.
Qed.

(** ** Claims on the hand evaluator *)

(** C1 (evaluated at the failing input). The wheel [{14,2,3,4,5}] is a
    Straight with tie-break [[5;4;3;2;14]], but the six-high straight
    [{2,3,4,5,6}] gets the empty tie-break: its run starts at index 0 and
    the slice [unique_ranks[4:-1:-1]] is empty. Under Python's list order
    the six-high straight therefore compares strictly below the wheel. *)
Theorem wheel_beats_six_high_straight :
  evaluate_hand [(14, hearts); (2, diamonds)] [(3, clubs); (4, spades); (5, hearts)]
    = Some (5, [5; 4; 3; 2; 14]) /\
  evaluate_hand [(2, hearts); (3, diamonds)] [(4, clubs); (5, spades); (6, hearts)]
    = Some (5, []) /\
  py_list_lt [] [5; 4; 3; 2; 14] = true.
Proof. split; [|split]; vm_compute; reflexivity. Qed.

(** C2 (evaluated at the failing input). With distinct ranks
    [{2,4,5,6,7,8,9}] the ascending scan of [get_best_straight] stops at the
    lowest run [4..8], so the Straight's tie-break is led by 8, not by the
    top card 9 of the highest run [5..9]. *)
Theorem straight_tiebreak_lowest_run :
  evaluate_hand [(2, hearts); (4, diamonds)]
                [(5, clubs); (6, spades); (7, hearts); (8, diamonds); (9, clubs)]
    = Some (5, [8; 7; 6; 5; 4]).
Proof. vm_compute. reflexivity. Qed.

(** C3 (evaluated at the failing input). The same seven cards, supplied in
    two orders, give two different FullHouse tie-breaks: the pair is the
    first rank of count 2 in the Counter's insertion order. *)
Theorem full_house_depends_on_card_order :
  Permutation ([(14, hearts); (14, diamonds)] ++
               [(14, clubs); (13, hearts); (13, diamonds); (12, clubs); (12, spades)])
              ([(14, hearts); (14, diamonds)] ++
               [(14, clubs); (12, clubs); (12, spades); (13, hearts); (13, diamonds)]) /\
  evaluate_hand [(14, hearts); (14, diamonds)]
                [(14, clubs); (13, hearts); (13, diamonds); (12, clubs); (12, spades)]
    = Some (7, [14; 13]) /\
  evaluate_hand [(14, hearts); (14, diamonds)]
                [(14, clubs); (12, clubs); (12, spades); (13, hearts); (13, diamonds)]
    = Some (7, [14; 12]).
Proof.
  split; [|split; vm_compute; reflexivity].
  simpl. do 3 constructor.
  exact (Permutation_app_comm [(13, hearts); (13, diamonds)] [(12, clubs); (12, spades)]).
Qed.

(** C4 (evaluated at the failing inputs). Two triples, 7s and 9s: the
    hand is not classified FullHouse [[9; 7]] but ThreeOfAKind (4) with
    tie-break [[7; 9; 9]], because [is_full_house] asks for a count of
    exactly 2 and [get_best_three_of_a_kind] takes the first triple in
    Counter order. A triple of Kings with pairs of 5s and Queens (5s
    first): FullHouse with tie-break [[13; 5]], the first pair in Counter
    order, not the highest pair 12. *)
Theorem full_house_not_highest_triple_and_pair :
  evaluate_hand [(7, hearts); (7, diamonds)]
                [(7, clubs); (9, hearts); (9, diamonds); (9, clubs); (2, spades)]
    = Some (4, [7; 9; 9]) /\
  evaluate_hand [(13, hearts); (13, diamonds)]
                [(13, clubs); (5, hearts); (5, diamonds); (12, clubs); (12, spades)]
    = Some (7, [13; 5]).
Proof. vm_compute. split; reflexivity. Qed.

(** C5 (evaluated at the failing inputs). The StraightFlush tie-break is
    [get_best_straight] of ALL seven ranks, not of the flush suit's ranks:
    with hearts 5-9 plus the 4 of clubs and the King of diamonds it is the
    empty list (the lowest run 4-8 starts at index 0); with hearts 6-10
    plus the 5 of clubs and the 2 of diamonds it is [[9; 8; 7; 6; 5]], a
    run led by 9 that uses the 5 of clubs, not the top card 10 of the
    straight flush. For the spec's Example 1 it is the five ranks
    [[14; 13; 12; 11; 10]], not [[14]]. *)
Theorem straight_flush_tiebreak_from_all_ranks :
  evaluate_hand [(5, hearts); (6, hearts)]
                [(7, hearts); (8, hearts); (9, hearts); (4, clubs); (13, diamonds)]
    = Some (9, []) /\
  evaluate_hand [(6, hearts); (7, hearts)]
                [(8, hearts); (9, hearts); (10, hearts); (5, clubs); (2, diamonds)]
    = Some (9, [9; 8; 7; 6; 5]) /\
  evaluate_hand [(14, hearts); (13, hearts)]
                [(12, hearts); (11, hearts); (10, hearts); (2, clubs); (3, spades)]
    = Some (9, [14; 13; 12; 11; 10]).
Proof. vm_compute. repeat split; reflexivity. Qed.

(** C10. For 2 hole cards and 0, 3, 4 or 5 community cards with no
    duplicate card, [evaluate_hand] returns a result: no [[0]] index and
    no [max] in any reached branch is taken over an empty list. *)
Theorem evaluate_hand_total (hand community_cards : list card) :
  length hand = 2 ->
  In (length community_cards) [0; 3; 4; 5] ->
  NoDup (hand ++ community_cards) ->
  exists r, evaluate_hand hand community_cards = Some r.
Proof.
  intros Hh Hc _.
  destruct (evaluate_hand hand community_cards) as [r|] eqn:E; [eauto|].
  exfalso. apply (evaluate_hand_total_len hand community_cards); [|exact E].
  rewrite length_app, Hh. simpl in Hc. lia.
Qed.

Lemma evaluate_hand_total_witness :
  exists r, evaluate_hand [(14, hearts); (13, hearts)]
              [(12, hearts); (11, hearts); (10, hearts); (2, clubs); (3, spades)] = Some r.
Proof.
  apply evaluate_hand_total; [reflexivity | simpl; tauto |].
  repeat constructor; simpl; intuition discriminate.
Defined.

(** ** Claims on the round engine *)

(** C6 (evaluated at the failing input). Both players check and commit no
    chips, yet the pot grows from 200 to 400: the pass adds each player's
    standing [current_bet] to the pot, not the amount newly committed. *)
Theorem check_pass_adds_standing_bets :
  let g' := betting_round (fun lo _ => lo) (fun _ _ => "check"%string) flop_after_two_bets in
  map chips (players g') = map chips (players flop_after_two_bets) /\
  pot g' = 400%Z.
Proof. vm_compute. split; reflexivity. Qed.

(** C7, counterexample: with exactly one active player the showdown still
    passes that player's hand to [evaluate_hand]. *)
Theorem single_active_player_is_evaluated :
  option_map snd (determine_winner one_left_at_showdown) = Some ["AI Player 4"%string].
Proof. vm_compute. reflexivity. Qed.

(** C7, amended: with exactly one active player holding 2 hole cards and
    0, 3, 4 or 5 community cards, that player is declared the winner and
    the evaluator is invoked exactly once, on that player's hand. *)
Theorem single_active_player_wins (g : game) (p : player) :
  filter is_active (players g) = [p] ->
  length (hand p) = 2 ->
  In (length (community g)) [0; 3; 4; 5] ->
  determine_winner g = Some (Some p, [name p]).
Proof.
  intros Hact Hh Hc. unfold determine_winner. rewrite Hact. simpl.
  destruct (evaluate_hand (hand p) (community g)) as [[v b]|] eqn:E; [reflexivity|].
  exfalso. apply (evaluate_hand_total_len (hand p) (community g)); [|exact E].
  rewrite length_app, Hh. simpl in Hc. lia.
Qed.

Lemma single_active_player_wins_witness :
  determine_winner one_left_at_showdown =
    Some (Some (mkPlayer "AI Player 4" 900 [(14, hearts); (13, spades)] 100 true),
          ["AI Player 4"%string]).
Proof.
  apply (single_active_player_wins one_left_at_showdown); vm_compute; [reflexivity | reflexivity |].
  tauto.
Defined.

(** C8, counterexample: [play_pre_flop] itself does not reset the players:
    the player who folded last round is still inactive after the next
    PreFlop (so its betting pass skipped that player), and its
    [current_bet] still holds last round's 50. *)
Theorem pre_flop_keeps_folded_player_inactive :
  option_map (fun g' => map (fun p => (is_active p, current_bet p)) (players g'))
    (play_pre_flop (fun lo _ => lo) (fun _ _ => "check"%string) (fun d => d)
       after_round_with_fold)
  = Some [(true, 100%Z); (false, 50%Z)].
Proof. vm_compute. reflexivity. Qed.

(** C8, amended. [play_pre_flop] deals, then runs the betting pass. The deal
    phase resets the deck to the shuffled full deck [shuffle full_deck]
    (whatever the previous deck was) and pops the hole cards from its end,
    rotates the dealer by one (mod the player count), clears the pot and the
    community cards and gives every player 2 fresh hole cards while keeping
    its chips, [current_bet] and [is_active]; the betting pass keeps the
    deck and the hole cards. When the round is
    started through the GUI's [reset_game_for_next_round], every player is
    active with [current_bet = 0] and 2 hole cards when the PreFlop betting
    pass runs. *)
Theorem pre_flop_deals_without_reset
    (randint : Z -> Z -> Z) (decide : player -> list card -> string)
    (shuffle : list card -> list card) (g : game) :
  length (shuffle full_deck) = 52 ->
  num_players g <> 0 ->
  length (players g) <= 26 ->
  (exists g',
     pre_flop_deal shuffle g = Some g' /\
     play_pre_flop randint decide shuffle g = Some (betting_round randint decide g') /\
     dealer_position g' = (dealer_position g + 1) mod num_players g /\
     pot g' = 0%Z /\ community g' = [] /\
     Forall2 dealt (players g) (players g') /\
     shuffle full_deck = deck g' ++ rev (concat (map hand (players g'))) /\
     deck (betting_round randint decide g') = deck g' /\
     map hand (players (betting_round randint decide g')) = map hand (players g')) /\
  (exists g'',
     pre_flop_deal shuffle (reset_game_for_next_round shuffle g) = Some g'' /\
     Forall (fun p => is_active p = true /\ current_bet p = 0%Z /\ length (hand p) = 2)
            (players g'')).
Proof.
  intros Hsh Hn Hlen.
  assert (Hok : forall g0, num_players g0 = num_players g -> length (players g0) = length (players g) ->
            exists g', pre_flop_deal shuffle g0 = Some g' /\
              dealer_position g' = (dealer_position g0 + 1) mod num_players g0 /\
              pot g' = 0%Z /\ community g' = [] /\ Forall2 dealt (players g0) (players g') /\
              shuffle full_deck = deck g' ++ rev (concat (map hand (players g')))).
  { intros g0 Hn0 Hl0. unfold pre_flop_deal. rewrite Hn0.
    apply Nat.eqb_neq in Hn. rewrite Hn.
    destruct (deal_hole_cards_some (players g0) (shuffle full_deck)) as [ps [r Hd]]; [lia|].
    rewrite Hd. eexists; split; [reflexivity|]. simpl.
    repeat split; auto; [eapply deal_hole_cards_dealt | eapply deal_hole_cards_app]; eauto. }
  split.
  - destruct (Hok g eq_refl eq_refl) as [g' [Hd [H1 [H2 [H3 [H4 H5]]]]]]. exists g'.
    split; [exact Hd|].
    split; [unfold play_pre_flop; rewrite Hd; reflexivity|].
    destruct (betting_round_deck randint decide g') as [H6 H7]. auto 8.
  - destruct (Hok (reset_game_for_next_round shuffle g)) as [g'' [Hd [_ [_ [_ [Hf _]]]]]];
      [reflexivity | simpl; apply length_map |].
    exists g''. split; [exact Hd|]. simpl in Hf.
    clear Hd. induction (players g) as [|p ps IH] in g'', Hf |- *; simpl in Hf.
    + inversion Hf. constructor.
    + inversion Hf as [|? p'' ? ps'' [h [Hp Hh]] Hrest]; subst. constructor.
      * simpl. auto.
      * apply (IH (mkGame 0 ps'' [] [] 0 0)). exact Hrest.
Qed.

Lemma pre_flop_deals_without_reset_witness :
  (exists g',
     pre_flop_deal (fun d => d) after_round_with_fold = Some g' /\
     play_pre_flop (fun lo _ => lo) (fun _ _ => "check"%string) (fun d => d) after_round_with_fold
       = Some (betting_round (fun lo _ => lo) (fun _ _ => "check"%string) g') /\
     dealer_position g' = (dealer_position after_round_with_fold + 1) mod num_players after_round_with_fold /\
     pot g' = 0%Z /\ community g' = [] /\
     Forall2 dealt (players after_round_with_fold) (players g') /\
     full_deck = deck g' ++ rev (concat (map hand (players g'))) /\
     deck (betting_round (fun lo _ => lo) (fun _ _ => "check"%string) g') = deck g' /\
     map hand (players (betting_round (fun lo _ => lo) (fun _ _ => "check"%string) g')) =
       map hand (players g')) /\
  (exists g'',
     pre_flop_deal (fun d => d) (reset_game_for_next_round (fun d => d) after_round_with_fold) = Some g'' /\
     Forall (fun p => is_active p = true /\ current_bet p = 0%Z /\ length (hand p) = 2)
            (players g'')).
Proof.
  apply pre_flop_deals_without_reset; vm_compute; [reflexivity | discriminate | lia].
Defined.

(** ** The decision boundary *)

Lemma whole_word_at_shift (prev : bool) (c : ascii) (t : list ascii) (j : nat) (k : string) :
  whole_word_at prev (c :: t) (S j) k = whole_word_at (word_char c) t j k.
Proof. unfold whole_word_at, boundary_before. destruct j; reflexivity. Qed.

Lemma whole_word_at_nil (prev : bool) (i : nat) (k : string) :
  In k keywords -> whole_word_at prev [] i k = false.
Proof.
  intros Hk. unfold whole_word_at. rewrite skipn_nil.
  simpl in Hk. repeat destruct Hk as [<-|Hk]; try contradiction; simpl;
    rewrite ?andb_false_r; reflexivity.
Qed.

(** The alternation tried at one position. *)
Lemma match_here_at (prev : bool) (l : list ascii) :
  match (if prev then None else match_here l) with
  | Some k => In k keywords /\ whole_word_at prev l 0 k = true
  | None => forall k, In k keywords -> whole_word_at prev l 0 k = false
  end.
Proof.
  destruct prev.
  - intros k _. reflexivity.
  - unfold match_here. destruct (find _ keywords) as [k|] eqn:E.
    + apply find_some in E. destruct E as [Hin Hk]. split; [exact Hin|].
      unfold whole_word_at; simpl. exact Hk.
    + intros k Hk. pose proof (find_none _ _ E k Hk) as Hf.
      unfold whole_word_at; simpl. exact Hf.
Qed.

(** [re.search] returns the leftmost whole-word keyword occurrence. *)
Lemma regex_search_spec (l : list ascii) (prev : bool) :
  match regex_search prev l with
  | Some k => In k keywords /\
      exists i, whole_word_at prev l i k = true /\
        forall j k', j < i -> In k' keywords -> whole_word_at prev l j k' = false
  | None => forall i k, In k keywords -> whole_word_at prev l i k = false
  end.
Proof.
  revert prev; induction l as [|c t IH]; intros prev.
  - simpl. intros i k Hk. apply whole_word_at_nil; exact Hk.
  - cbn [regex_search]. pose proof (match_here_at prev (c :: t)) as H0.
    destruct (if prev then None else match_here (c :: t)) as [k|] eqn:Eh.
    + destruct H0 as [Hin Hw]. split; [exact Hin|]. exists 0. split; [exact Hw | intros; lia].
    + specialize (IH (word_char c)). destruct (regex_search (word_char c) t) as [k|].
      * destruct IH as [Hin [i [Hw Hfirst]]]. split; [exact Hin|].
        exists (S i). rewrite whole_word_at_shift. split; [exact Hw|].
        intros [|j] k' Hj Hk'; [apply H0; exact Hk'|].
        rewrite whole_word_at_shift. apply Hfirst; [lia | exact Hk'].
      * intros [|i] k Hk; [apply H0; exact Hk|].
        rewrite whole_word_at_shift. apply IH; exact Hk.
Qed.

Lemma valid_action_keyword (k : string) : In k keywords -> valid_action k = true.
Proof.
  intros Hk. simpl in Hk. repeat destruct Hk as [<-|Hk]; try contradiction; reflexivity.
Qed.

Lemma valid_action_In (a : string) : valid_action a = true -> In a keywords.
Proof.
  unfold valid_action. rewrite existsb_exists. intros [k [Hk Heq]].
  apply String.eqb_eq in Heq. subst; exact Hk.
Qed.

Lemma sanitize_decision_valid (s : string) : valid_action (sanitize_decision s) = true.
Proof.
  unfold sanitize_decision.
  pose proof (regex_search_spec (list_ascii_of_string (lower s)) false) as H.
  destruct (regex_search false _) as [k|]; [apply valid_action_keyword, H | reflexivity].
Qed.

Lemma retry_loop_valid (attempt : nat -> transport) (n k : nat) :
  valid_action (retry_loop attempt k n) = true.
Proof.
  revert k; induction n as [|n IH]; intros k; simpl; [reflexivity|].
  destruct (attempt k) as [|content]; [reflexivity|].
  destruct (valid_action (sanitize_decision (lower (strip content)))) eqn:E; [exact E | apply IH].
Qed.

(** C9, counterexample: "I folded" contains the keyword "fold" as its first
    keyword occurrence, but the regex needs a word boundary after the
    keyword, so the boundary answers "check". *)
Theorem sanitize_decision_whole_words_only :
  sanitize_decision "I folded" = "check"%string /\
  spec_boundary "I folded" = "fold"%string.
Proof. vm_compute. split; reflexivity. Qed.

(** C9, amended. [sanitize_decision] returns the first whole-word
    (case-insensitive) occurrence of fold/check/bet/raise, or "check" when
    there is none; [get_ai_decision] returns "fold" at once on a transport
    error, the sanitized text of the first received response otherwise,
    "fold" when no attempt is made; and always one of the four actions. *)
Theorem decision_boundary_spec :
  (forall s : string,
     let l := list_ascii_of_string (lower s) in
     (sanitize_decision s = "check"%string /\
      forall i k, In k keywords -> whole_word_at false l i k = false) \/
     (In (sanitize_decision s) keywords /\
      exists i, whole_word_at false l i (sanitize_decision s) = true /\
        forall j k, j < i -> In k keywords -> whole_word_at false l j k = false)) /\
  (forall (attempt : nat -> transport) (n : nat),
     get_ai_decision attempt (S n) =
       match attempt 0 with
       | RequestError => "fold"%string
       | Response content => sanitize_decision (lower (strip content))
       end) /\
  (forall attempt : nat -> transport, get_ai_decision attempt 0 = "fold"%string) /\
  (forall (attempt : nat -> transport) (n : nat),
     In (get_ai_decision attempt n) keywords).
Proof.
  split; [|split; [|split]].
  - intros s l. unfold sanitize_decision. subst l.
    pose proof (regex_search_spec (list_ascii_of_string (lower s)) false) as H.
    destruct (regex_search false _) as [k|]; [right; exact H | left; split; [reflexivity | exact H]].
  - intros attempt n. unfold get_ai_decision. simpl.
    destruct (attempt 0) as [|content]; [reflexivity|].
    rewrite sanitize_decision_valid. reflexivity.
  - reflexivity.
  - intros attempt n. apply valid_action_In, retry_loop_valid.
Qed.

(** ** Counting bounds for the full-house classification *)

Section CountBounds.
Context {A : Type} (eqb : A -> A -> bool).
Hypothesis eqb_true : forall x y, eqb x y = true <-> x = y.

Lemma count_of_pos_In (x : A) (l : list A) : 0 < count_of eqb x l -> In x l.
  Proof.
    unfold count_of. destruct (filter (eqb x) l) as [|y f] eqn:E; simpl; [lia|].
    intros _. assert (Hy : In y (filter (eqb x) l)) by (rewrite E; left; auto).
    apply filter_In in Hy. destruct Hy as [Hy Hxy]. apply eqb_true in Hxy. subst; exact Hy.
  Qed.

Lemma count_of_In_pos (x : A) (l : list A) : In x l -> 1 <= count_of eqb x l.
  Proof.
    intros Hx. unfold count_of.
    assert (Hf : In x (filter (eqb x) l))
      by (apply filter_In; split; [exact Hx | apply eqb_true; auto]).
    destruct (filter (eqb x) l); [contradiction | simpl; lia].
  Qed.

Lemma sum_indicator_le (x : A) (P : list A) :
    NoDup P -> list_sum (map (fun q => if eqb q x then 1 else 0) P) <= 1.
  Proof.
    intros Hnd. destruct (mem eqb x P) eqn:Hm.
    - apply (mem_In eqb eqb_true) in Hm. rewrite (sum_indicator eqb eqb_true x P Hnd Hm). lia.
    - assert (Hnin : ~ In x P) by (rewrite <- (mem_In eqb eqb_true), Hm; discriminate).
      clear Hnd Hm. induction P as [|q P IH]; simpl; [lia|].
      destruct (eqb q x) eqn:E; [apply eqb_true in E; subst; simpl in Hnin; tauto|].
      apply IH. simpl in Hnin. tauto.
  Qed.

(** Distinct keys never count more elements than the list has. *)
Lemma counts_le_length (l P : list A) :
    NoDup P -> list_sum (map (fun q => count_of eqb q l) P) <= length l.
  Proof.
    intros Hnd. induction l as [|y t IH]; simpl.
    - unfold count_of; simpl. clear Hnd. induction P; simpl; lia.
    - assert (Hs : list_sum (map (fun q => count_of eqb q (y :: t)) P) =
                   list_sum (map (fun q => if eqb q y then 1 else 0) P) +
                   list_sum (map (fun q => count_of eqb q t) P)).
      { clear IH Hnd. induction P as [|q P IHP]; simpl; [reflexivity|].
        rewrite count_of_cons, IHP. lia. }
      rewrite Hs. pose proof (sum_indicator_le y P Hnd). lia.
  Qed.

Lemma In_values_Counter (x : A) (l : list A) :
    In x l -> In (count_of eqb x l) (values (Counter eqb l)).
  Proof.
    intros Hx. unfold values, Counter. rewrite map_map. simpl.
    apply (in_map (fun y => count_of eqb y l)), (In_uniq eqb eqb_true); exact Hx.
  Qed.
End CountBounds.

Lemma sum_ge_length (f : nat -> nat) (F : list nat) :
  (forall x, In x F -> 1 <= f x) -> length F <= list_sum (map f F).
Proof.
  induction F as [|x F IH]; simpl; intros H; [lia|].
  pose proof (H x (or_introl eq_refl)). specialize (IH (fun y Hy => H y (or_intror Hy))). lia.
Qed.

Lemma insert_asc_perm (x : nat) (l : list nat) : Permutation (insert_asc x l) (x :: l).
Proof.
  induction l as [|y t IH]; simpl; [reflexivity|].
  destruct (x <=? y); [reflexivity|].
  transitivity (y :: x :: t); [constructor; exact IH | constructor].
Qed.

Lemma sort_asc_perm (l : list nat) : Permutation (sort_asc l) l.
Proof.
  induction l as [|x t IH]; simpl; [reflexivity|].
  rewrite insert_asc_perm. constructor; exact IH.
Qed.

(** [is_straight] needs five distinct ranks. *)
Lemma is_straight_distinct (ranks : list nat) :
  is_straight ranks = true -> 5 <= length (uniq Nat.eqb ranks).
Proof.
  unfold is_straight, unique_ranks. rewrite (Permutation_length (sort_asc_perm _)).
  destruct (length (uniq Nat.eqb ranks) <? 5) eqn:E; [discriminate|].
  apply Nat.ltb_ge in E. intros _; exact E.
Qed.

Lemma In_suited_ranks (all_cards : list card) (s : suit) (x : nat) :
  In x (suited_ranks all_cards s) -> In x (ranks_of all_cards).
Proof.
  unfold suited_ranks, ranks_of. rewrite !in_map_iff.
  intros [c [Hc Hin]]. apply filter_In in Hin. exists c; tauto.
Qed.

(** A rank of count 3 and another of count 2 leave at most two cards of
    seven: not enough for a straight flush. *)
Lemma no_straight_flush_with_triple_and_pair (all_cards : list card) (t p : nat) :
  length all_cards <= 7 ->
  count_of Nat.eqb t (ranks_of all_cards) = 3 ->
  count_of Nat.eqb p (ranks_of all_cards) = 2 ->
  is_straight_flush all_cards = false.
Proof.
  intros Hlen Ht Hp. set (rs := ranks_of all_cards) in *.
  assert (Hrs : length rs <= 7) by (unfold rs, ranks_of; rewrite length_map; exact Hlen).
  assert (Htp : t <> p) by (intros ->; congruence).
  destruct (is_straight_flush all_cards) eqn:E; [exfalso|reflexivity].
  unfold is_straight_flush in E. apply existsb_exists in E.
  destruct E as [[s c] [_ Hs]]. apply andb_true_iff in Hs. destruct Hs as [_ Hs]. simpl in Hs.
  apply is_straight_distinct in Hs.
  set (D := uniq Nat.eqb (suited_ranks all_cards s)) in *.
  assert (HD : forall x, In x D -> In x rs).
  { intros x Hx. unfold D in Hx. rewrite (In_uniq Nat.eqb Nat_eqb_true) in Hx.
    exact (In_suited_ranks all_cards s x Hx). }
  set (F := filter (fun r => negb (r =? t) && negb (r =? p)) D).
  assert (HF : 5 <= 2 + length F).
  { transitivity (length D); [exact Hs|].
    change (2 + length F) with (length (t :: p :: F)).
    apply NoDup_incl_length; [apply uniq_NoDup, Nat_eqb_true|].
    intros x Hx. destruct (Nat.eq_dec x t) as [->|Hxt]; [left; auto|].
    destruct (Nat.eq_dec x p) as [->|Hxp]; [right; left; auto|].
    right; right. apply filter_In. split; [exact Hx|].
    apply Nat.eqb_neq in Hxt, Hxp. rewrite Hxt, Hxp. reflexivity. }
  assert (Hnd : NoDup (t :: p :: F)).
  { constructor; [|constructor].
    - intros [Hpt|Hin]; [congruence|].
      apply filter_In in Hin. destruct Hin as [_ Hin]. rewrite Nat.eqb_refl in Hin. discriminate.
    - intros Hin. apply filter_In in Hin. destruct Hin as [_ Hin].
      rewrite Nat.eqb_refl, andb_false_r in Hin. discriminate.
    - apply NoDup_filter, uniq_NoDup, Nat_eqb_true. }
  pose proof (counts_le_length Nat.eqb Nat_eqb_true rs _ Hnd) as Hle.
  simpl in Hle. rewrite Ht, Hp in Hle.
  assert (Hsum : length F <= list_sum (map (fun q => count_of Nat.eqb q rs) F)).
  { apply sum_ge_length. intros x Hx. apply (count_of_In_pos Nat.eqb Nat_eqb_true).
    apply HD. apply filter_In in Hx. tauto. }
  lia.
Qed.

(** Nor for a rank of count 4. *)
Lemma no_quads_with_triple_and_pair (l : list nat) (t p : nat) :
  length l <= 7 -> count_of Nat.eqb t l = 3 -> count_of Nat.eqb p l = 2 ->
  is_four_of_a_kind (Counter Nat.eqb l) = false.
Proof.
  intros Hlen Ht Hp. unfold is_four_of_a_kind.
  destruct (mem Nat.eqb 4 (values (Counter Nat.eqb l))) eqn:E; [exfalso|reflexivity].
  apply (mem_In Nat.eqb Nat_eqb_true) in E. unfold values in E. apply in_map_iff in E.
  destruct E as [[k v] [Hv Hk]]. simpl in Hv; subst v.
  apply (In_Counter Nat.eqb Nat_eqb_true) in Hk. destruct Hk as [_ Hk].
  assert (Hnd : NoDup [t; p; k]).
  { constructor; [|constructor; [|constructor; [simpl; tauto | constructor]]]; simpl;
      intros H; repeat destruct H as [H|H]; subst; try contradiction; lia. }
  pose proof (counts_le_length Nat.eqb Nat_eqb_true l _ Hnd) as Hle. simpl in Hle. lia.
Qed.

Lemma head_of_unique (K : list nat) (x : nat) :
  In x K -> (forall y, In y K -> y = x) -> py_head K = Some x.
Proof.
  destruct K as [|y K]; simpl; [contradiction|]. intros _ H. f_equal. apply H. left; auto.
Qed.

(** X19. For at most seven cards in which exactly one rank [t] occurs
    three times and exactly one other rank [p] occurs twice, [evaluate_hand]
    classifies the hand as FullHouse (7) with tie-break [[t; p]]: with a
    single triple and a single pair the Counter order does not matter. *)
Theorem full_house_single_triple_and_pair (hand community_cards : list card) (t p : nat) :
  length (hand ++ community_cards) <= 7 ->
  count_of Nat.eqb t (ranks_of (hand ++ community_cards)) = 3 ->
  count_of Nat.eqb p (ranks_of (hand ++ community_cards)) = 2 ->
  (forall r, In r (ranks_of (hand ++ community_cards)) ->
     count_of Nat.eqb r (ranks_of (hand ++ community_cards)) = 3 -> r = t) ->
  (forall r, In r (ranks_of (hand ++ community_cards)) ->
     count_of Nat.eqb r (ranks_of (hand ++ community_cards)) = 2 -> r = p) ->
  evaluate_hand hand community_cards = Some (7, [t; p]).
Proof.
  intros Hlen Ht Hp Hut Hup.
  pose proof (no_straight_flush_with_triple_and_pair _ t p Hlen Ht Hp) as Hsf.
  set (rs := ranks_of (hand ++ community_cards)) in *.
  assert (Hrs : length rs <= 7) by (unfold rs, ranks_of; rewrite length_map; exact Hlen).
  pose proof (no_quads_with_triple_and_pair rs t p Hrs Ht Hp) as H4.
  assert (Htin : In t rs) by (apply (count_of_pos_In Nat.eqb Nat_eqb_true); lia).
  assert (Hpin : In p rs) by (apply (count_of_pos_In Nat.eqb Nat_eqb_true); lia).
  assert (Hfh : is_full_house (Counter Nat.eqb rs) = true).
  { unfold is_full_house. apply andb_true_iff. split; apply (mem_In Nat.eqb Nat_eqb_true).
    - rewrite <- Ht. apply (In_values_Counter Nat.eqb Nat_eqb_true); exact Htin.
    - rewrite <- Hp. apply (In_values_Counter Nat.eqb Nat_eqb_true); exact Hpin. }
  unfold evaluate_hand. cbv zeta. fold rs. rewrite Hsf, H4, Hfh.
  unfold get_best_full_house.
  rewrite (head_of_unique _ t), (head_of_unique _ p); [reflexivity| | | |].
  - apply (In_keys_where Nat.eqb Nat_eqb_true). rewrite Hp. auto.
  - intros y Hy. apply (In_keys_where Nat.eqb Nat_eqb_true) in Hy.
    destruct Hy as [Hy Hc]. apply Nat.eqb_eq in Hc. apply Hup; auto.
  - apply (In_keys_where Nat.eqb Nat_eqb_true). rewrite Ht. auto.
  - intros y Hy. apply (In_keys_where Nat.eqb Nat_eqb_true) in Hy.
    destruct Hy as [Hy Hc]. apply Nat.eqb_eq in Hc. apply Hut; auto.
Qed.

(** The spec's Example 3: three fives and two nines. *)
Lemma full_house_single_triple_and_pair_witness :
  evaluate_hand [(5, hearts); (5, clubs)]
                [(5, spades); (9, clubs); (9, hearts); (2, diamonds); (3, spades)]
    = Some (7, [5; 9]).
Proof.
  apply full_house_single_triple_and_pair; [vm_compute; lia | vm_compute; reflexivity
    | vm_compute; reflexivity | |];
    intros r Hr Hc; simpl in Hr; repeat destruct Hr as [<-|Hr]; try contradiction;
    vm_compute in Hc; congruence.
Defined.

(** ** The deck and the deals *)

Definition card_eqb (a b : card) : bool := (fst a =? fst b) && suit_eqb (snd a) (snd b).

Lemma card_eqb_true (a b : card) : card_eqb a b = true <-> a = b.
Proof.
  destruct a as [r s], b as [r' s']. unfold card_eqb; simpl.
  rewrite andb_true_iff, Nat.eqb_eq, suit_eqb_true. split; [intros [-> ->]; reflexivity|].
  intros H; injection H as -> ->; auto.
Qed.

Fixpoint nodupb {A} (eqb : A -> A -> bool) (l : list A) : bool :=
  match l with
  | [] => true
  | x :: t => negb (mem eqb x t) && nodupb eqb t
  end.

Lemma nodupb_NoDup {A} (eqb : A -> A -> bool) (l : list A) :
  (forall x y, eqb x y = true <-> x = y) -> nodupb eqb l = true -> NoDup l.
Proof.
  intros Heq. induction l as [|x t IH]; simpl; intros H; [constructor|].
  apply andb_true_iff in H as [Hm Ht]. constructor; [|auto].
  rewrite <- (mem_In eqb Heq). destruct (mem eqb x t); simpl in Hm; congruence.
Qed.



Lemma deal_cards_perm (n : nat) (cards cs r : list card) :
  deal_cards n cards = Some (cs, r) -> Permutation cards (cs ++ r).
Proof.
  intros H. rewrite (deal_cards_app _ _ _ _ H).
  eapply perm_trans; [apply Permutation_app_comm|].
  apply Permutation_app_tail. apply Permutation_sym, Permutation_rev.
Qed.

Lemma pop_perm (cards r : list card) (c : card) :
  pop cards = Some (c, r) -> Permutation cards (c :: r).
Proof.
  intros H. rewrite (pop_app _ _ _ H). apply Permutation_sym, Permutation_cons_append.
Qed.

Lemma deal_hole_cards_perm (ps ps' : list player) (cards r : list card) :
  deal_hole_cards ps cards = Some (ps', r) ->
  Permutation cards (concat (map hand ps') ++ r).
Proof.
  revert cards ps' r; induction ps as [|p ps IH]; intros cards ps' r H;
    cbn [deal_hole_cards] in H.
  - injection H as <- <-. reflexivity.
  - destruct (deal_cards 2 cards) as [[h c1]|] eqn:Ed; [|discriminate].
    destruct (deal_hole_cards ps c1) as [[ps1 r1]|] eqn:E; [|discriminate].
    injection H as <- <-. simpl. rewrite <- app_assoc.
    eapply perm_trans; [apply (deal_cards_perm _ _ _ _ Ed)|].
    apply Permutation_app_head. eapply IH; eauto.
Qed.

Lemma make_decision_hand (randint : Z -> Z -> Z) (decide : player -> list card -> string)
  (p : player) (cc : list card) (cur : Z) :
  hand (fst (make_decision randint decide p cc cur)) = hand p /\
  name (fst (make_decision randint decide p cc cur)) = name p.
Proof.
  unfold make_decision. destruct (negb (is_active p)); [auto|].
  repeat match goal with |- context [if ?b then _ else _] => destruct b end; simpl; auto.
Qed.

Lemma betting_pass_hands (randint : Z -> Z -> Z) (decide : player -> list card -> string)
  (cc : list card) (cur pot : Z) (ps : list player) :
  map hand (fst (betting_pass randint decide cc cur pot ps)) = map hand ps.
Proof.
  revert cur pot; induction ps as [|p ps IH]; intros cur pot; simpl; [reflexivity|].
  destruct (is_active p).
  - match goal with |- context [betting_pass ?a ?b ?c ?d ?e ps] =>
      specialize (IH d e); destruct (betting_pass a b c d e ps) end.
    simpl in *. rewrite IH. f_equal. apply make_decision_hand.
  - specialize (IH cur pot). destruct (betting_pass randint decide cc cur pot ps).
    simpl in *. rewrite IH. reflexivity.
Qed.

Lemma betting_round_table (randint : Z -> Z -> Z) (decide : player -> list card -> string)
  (g : game) :
  let g' := betting_round randint decide g in
  map hand (players g') = map hand (players g) /\ deck g' = deck g /\
  community g' = community g /\ num_players g' = num_players g /\
  dealer_position g' = dealer_position g.
Proof.
  unfold betting_round. pose proof (betting_pass_hands randint decide (community g) 0 (pot g)
    (players g)) as H.
  destruct (betting_pass randint decide (community g) 0 (pot g) (players g)). simpl in *.
  auto.
Qed.

(** All cards in play: hole cards, community cards and the deck. *)
Definition cards_in_play (g : game) : list card :=
  concat (map hand (players g)) ++ community g ++ deck g.

Lemma play_pre_flop_cards (randint : Z -> Z -> Z) (decide : player -> list card -> string)
  (shuffle : list card -> list card) (g g' : game) :
  play_pre_flop randint decide shuffle g = Some g' ->
  Permutation (shuffle full_deck) (cards_in_play g') /\ community g' = [] /\
  Forall (fun h => length h = 2) (map hand (players g')) /\
  length (players g') = length (players g).
Proof.
  unfold play_pre_flop, pre_flop_deal.
  destruct (num_players g =? 0)%nat; [discriminate|].
  destruct (deal_hole_cards (players g) (shuffle full_deck)) as [[ps cards]|] eqn:E;
    [|discriminate].
  intros H; injection H as <-.
  pose proof (betting_round_table randint decide
    (mkGame (num_players g) ps cards [] 0 ((dealer_position g + 1) mod num_players g))) as
    [Hh [Hd [Hc _]]].
  unfold cards_in_play. rewrite Hh, Hd, Hc. simpl. repeat split.
  - eapply deal_hole_cards_perm; eauto.
  - pose proof (deal_hole_cards_dealt _ _ _ _ E) as Hf.
    clear -Hf. induction Hf as [|a b l l' [h [-> Hl]] _ IH]; simpl; constructor; auto.
  - apply (f_equal (@length _)) in Hh. rewrite !length_map in Hh. rewrite Hh.
    pose proof (deal_hole_cards_dealt _ _ _ _ E) as Hf. symmetry; eapply Forall2_length; eauto.
Qed.

Lemma play_flop_cards (randint : Z -> Z -> Z) (decide : player -> list card -> string)
  (g g' : game) :
  community g = [] -> play_flop randint decide g = Some g' ->
  Permutation (cards_in_play g) (cards_in_play g') /\ length (community g') = 3 /\
  map hand (players g') = map hand (players g) /\ length (deck g') = (length (deck g) - 3)%nat.
Proof.
  intros Hc0. unfold play_flop.
  destruct (deal_cards 3 (deck g)) as [[flop cards]|] eqn:E; [|discriminate].
  intros H; injection H as <-.
  match goal with |- context [betting_round ?r ?d ?g0] =>
    pose proof (betting_round_table r d g0) as [Hh [Hd [Hc _]]] end.
  unfold cards_in_play. rewrite Hh, Hd, Hc, Hc0. simpl.
  pose proof (deal_cards_app _ _ _ _ E) as Ha. pose proof (deal_cards_length _ _ _ _ E) as Hl.
  repeat split; auto.
  - apply Permutation_app_head. rewrite Ha. eapply perm_trans; [apply Permutation_app_comm|].
    apply Permutation_app_tail. apply Permutation_sym, Permutation_rev.
  - rewrite Ha, length_app, length_rev. lia.
Qed.

Lemma pop_street_cards (c : card) (cards : list card) (g : game) :
  pop (deck g) = Some (c, cards) ->
  Permutation (cards_in_play g)
    (concat (map hand (players g)) ++ (community g ++ [c]) ++ cards).
Proof.
  intros Hp. unfold cards_in_play. apply Permutation_app_head.
  rewrite <- app_assoc. apply Permutation_app_head. simpl. apply pop_perm; exact Hp.
Qed.

Lemma play_turn_cards (randint : Z -> Z -> Z) (decide : player -> list card -> string)
  (g g' : game) :
  play_turn randint decide g = Some g' ->
  Permutation (cards_in_play g) (cards_in_play g') /\
  length (community g') = S (length (community g)) /\
  map hand (players g') = map hand (players g) /\ length (deck g') = (length (deck g) - 1)%nat.
Proof.
  unfold play_turn. destruct (pop (deck g)) as [[c cards]|] eqn:E; [|discriminate].
  intros H; injection H as <-.
  match goal with |- context [betting_round ?r ?d ?g0] =>
    pose proof (betting_round_table r d g0) as [Hh [Hd [Hc _]]] end.
  unfold cards_in_play at 2. rewrite Hh, Hd, Hc. simpl.
  pose proof (pop_app _ _ _ E) as Ha.
  repeat split; auto.
  - apply pop_street_cards; exact E.
  - rewrite length_app; simpl; lia.
  - rewrite Ha, length_app; simpl; lia.
Qed.

Lemma play_river_cards (randint : Z -> Z -> Z) (decide : player -> list card -> string)
  (g g' : game) :
  play_river randint decide g = Some g' ->
  Permutation (cards_in_play g) (cards_in_play g') /\
  length (community g') = S (length (community g)) /\
  map hand (players g') = map hand (players g) /\ length (deck g') = (length (deck g) - 1)%nat.
Proof.
  unfold play_river. destruct (pop (deck g)) as [[c cards]|] eqn:E; [|discriminate].
  intros H; injection H as <-.
  match goal with |- context [betting_round ?r ?d ?g0] =>
    pose proof (betting_round_table r d g0) as [Hh [Hd [Hc _]]] end.
  unfold cards_in_play at 2. rewrite Hh, Hd, Hc. simpl.
  pose proof (pop_app _ _ _ E) as Ha.
  repeat split; auto.
  - apply pop_street_cards; exact E.
  - rewrite length_app; simpl; lia.
  - rewrite Ha, length_app; simpl; lia.
Qed.

Lemma full_deck_NoDup : NoDup full_deck.
Proof. apply (nodupb_NoDup card_eqb); [exact card_eqb_true | vm_compute; reflexivity]. Qed.

Lemma NoDup_prefix {A} (l l' : list A) : NoDup (l ++ l') -> NoDup l.
Proof.
  induction l as [|x l IH]; simpl; intros H; [constructor|]. inversion H; subst.
  constructor; [|auto]. intros Hx; apply H2, in_or_app; auto.
Qed.

Lemma concat_length_2 (hs : list (list card)) :
  Forall (fun h => length h = 2) hs -> length (concat hs) = (2 * length hs)%nat.
Proof. induction 1; simpl; [reflexivity|]. rewrite length_app. lia. Qed.

(** X1. [Deck()] and [Deck.reset] list 52 distinct cards, one for each rank
    2..14 and each of the four suits. *)
Theorem full_deck_cards :
  length full_deck = 52 /\ NoDup full_deck /\
  (forall c : card, In c full_deck <-> 2 <= fst c <= 14).
Proof.
  split; [reflexivity|]. split; [exact full_deck_NoDup|].
  intros [r s]. unfold full_deck. rewrite in_flat_map. cbn [fst]. split.
  - intros [r' [Hr Hs]]. apply in_seq in Hr. simpl in Hs.
    repeat destruct Hs as [Hs|Hs]; try contradiction; injection Hs as <- _; lia.
  - intros Hr. exists r. split; [apply in_seq; lia|].
    destruct s; simpl; tauto.
Qed.

(** X2. [[self.cards.pop() for _ in range(n)]] fails (IndexError) exactly
    when the deck holds fewer than [n] cards; otherwise it returns [n] cards,
    the last [n] of the deck taken from the end, and leaves the rest in
    order: the deck was [rest ++ rev dealt]. *)
Theorem deal_cards_from_end (n : nat) (cards : list card) :
  match deal_cards n cards with
  | None => length cards < n
  | Some (cs, r) => length cs = n /\ cards = r ++ rev cs
  end.
Proof.
  destruct (deal_cards n cards) as [[cs r]|] eqn:E.
  - split; [eapply deal_cards_length | eapply deal_cards_app]; eauto.
  - destruct (Nat.lt_ge_cases (length cards) n) as [H|H]; [exact H|].
    destruct (deal_cards_some n cards H) as [cs [r [Hd _]]]. congruence.
Qed.

(** X3. The four stages the GUI plays (pre-flop, flop, turn, river), from a
    deck that [random.shuffle] permuted, with at most 23 players: every
    stage finds enough cards, the board ends with 5 community cards, every
    player holds 2 hole cards, and no card is dealt twice; the hole cards,
    the board and the deck are the 52 cards of the full deck. *)
Theorem streets_deal_distinct_cards (randint : Z -> Z -> Z)
  (decide : player -> list card -> string) (shuffle : list card -> list card) (g : game) :
  Permutation (shuffle full_deck) full_deck ->
  num_players g <> 0 -> 2 * length (players g) + 5 <= 52 ->
  exists g', play_streets randint decide shuffle g = Some g' /\
    length (community g') = 5 /\
    Forall (fun h => length h = 2) (map hand (players g')) /\
    NoDup (concat (map hand (players g')) ++ community g') /\
    Permutation full_deck (cards_in_play g').
Proof.
  intros Hsh Hn Hlen.
  assert (Hl52 : length (shuffle full_deck) = 52) by (rewrite (Permutation_length Hsh); reflexivity).
  assert (Hg1 : exists g1, play_pre_flop randint decide shuffle g = Some g1).
  { unfold play_pre_flop, pre_flop_deal. apply Nat.eqb_neq in Hn. rewrite Hn.
    destruct (deal_hole_cards_some (players g) (shuffle full_deck)) as [ps [r Hd]]; [lia|].
    rewrite Hd. eauto. }
  destruct Hg1 as [g1 Hg1].
  destruct (play_pre_flop_cards _ _ _ _ _ Hg1) as [P1 [C1 [H1 L1]]].
  assert (D1 : length (deck g1) = (52 - 2 * length (players g))%nat).
  { pose proof (Permutation_length P1) as HL. unfold cards_in_play in HL.
    rewrite Hl52, !length_app, C1, concat_length_2, length_map in HL by exact H1. simpl in HL. lia. }
  destruct (deal_cards_some 3 (deck g1)) as [fl [r2 [Ed2 _]]]; [lia|].
  assert (Hg2 : exists g2, play_flop randint decide g1 = Some g2)
    by (unfold play_flop; rewrite Ed2; eauto).
  destruct Hg2 as [g2 Hg2].
  destruct (play_flop_cards _ _ _ _ C1 Hg2) as [P2 [C2 [H2 L2]]].
  destruct (pop_some (deck g2)) as [c3 [r3 [Ep3 _]]]; [lia|].
  assert (Hg3 : exists g3, play_turn randint decide g2 = Some g3)
    by (unfold play_turn; rewrite Ep3; eauto).
  destruct Hg3 as [g3 Hg3].
  destruct (play_turn_cards _ _ _ _ Hg3) as [P3 [C3 [H3 L3]]].
  destruct (pop_some (deck g3)) as [c4 [r4 [Ep4 _]]]; [lia|].
  assert (Hg4 : exists g4, play_river randint decide g3 = Some g4)
    by (unfold play_river; rewrite Ep4; eauto).
  destruct Hg4 as [g4 Hg4].
  destruct (play_river_cards _ _ _ _ Hg4) as [P4 [C4 [H4 L4]]].
  assert (P : Permutation full_deck (cards_in_play g4)).
  { eapply perm_trans; [apply Permutation_sym, Hsh|].
    eapply perm_trans; [exact P1|]. eapply perm_trans; [exact P2|].
    eapply perm_trans; [exact P3|]. exact P4. }
  exists g4. unfold play_streets. rewrite Hg1, Hg2, Hg3, Hg4. split; [reflexivity|].
  split; [lia|]. split; [rewrite H4, H3, H2; exact H1|]. split; [|exact P].
  apply (NoDup_prefix _ (deck g4)). rewrite <- app_assoc.
  apply (Permutation_NoDup P), full_deck_NoDup.
Qed.

Lemma streets_deal_distinct_cards_witness :
  Permutation full_deck full_deck /\ 2 <> 0 /\ 2 * 2 + 5 <= 52 /\
  exists g', play_streets (fun a _ => a) (fun _ _ => "check"%string) (fun d => d)
    (mkGame 2 [mkPlayer "AI Player 1" 1000 [] 0 true; mkPlayer "AI Player 2" 1000 [] 0 true]
            full_deck [] 0 0) = Some g' /\
    length (community g') = 5 /\
    Forall (fun h => length h = 2) (map hand (players g')) /\
    NoDup (concat (map hand (players g')) ++ community g') /\
    Permutation full_deck (cards_in_play g').
Proof.
  split; [reflexivity|]. split; [lia|]. split; [lia|].
  apply streets_deal_distinct_cards; [reflexivity | simpl; lia | simpl; lia].
Defined.

(** ** Betting *)

Open Scope Z_scope.

(** X4. A betting round keeps the table: the same players in the same
    order, with their names and hole cards; an inactive player is passed
    over unchanged and no player becomes active; the deck, the community
    cards, the player count and the dealer are untouched. *)
Theorem betting_round_keeps_table (randint : Z -> Z -> Z)
  (decide : player -> list card -> string) (g : game) :
  let g' := betting_round randint decide g in
  Forall2 (fun p p' => name p' = name p /\ hand p' = hand p /\
                       (is_active p = false -> p' = p) /\
                       (is_active p' = true -> is_active p = true))
          (players g) (players g') /\
  deck g' = deck g /\ community g' = community g /\ num_players g' = num_players g /\
  dealer_position g' = dealer_position g.
Proof.
  unfold betting_round.
  assert (H : forall cc cur pot ps,
    Forall2 (fun p p' => name p' = name p /\ hand p' = hand p /\
                         (is_active p = false -> p' = p) /\
                         (is_active p' = true -> is_active p = true))
            ps (fst (betting_pass randint decide cc cur pot ps))).
  { intros cc cur pot ps. revert cur pot.
    induction ps as [|p ps IH]; intros cur pot; simpl; [constructor|].
    destruct (is_active p) eqn:Ha.
    - match goal with |- context [betting_pass ?a ?b ?c ?d ?e ps] =>
        specialize (IH d e); destruct (betting_pass a b c d e ps) end.
      simpl in *. constructor; [|exact IH].
      destruct (make_decision_hand randint decide p cc cur) as [Hh Hn].
      split; [exact Hn|]. split; [exact Hh|]. split; [intros; congruence | auto].
    - specialize (IH cur pot). destruct (betting_pass randint decide cc cur pot ps).
      simpl in *. constructor; [|exact IH]. auto. }
  specialize (H (community g) 0 (pot g) (players g)).
  destruct (betting_pass randint decide (community g) 0 (pot g) (players g)).
  simpl in *. auto.
Qed.

Lemma amounts_within (randint : Z -> Z -> Z)
  (Hr : forall a b, a <= b -> a <= randint a b <= b) (p : player) (cur : Z) :
  let b := calculate_bet_amount randint p cur in
  let r := calculate_raise_amount randint p cur in
  b <= chips p /\ (b = chips p \/ Z.max cur 50 <= b <= cur + 200) /\
  r <= chips p /\ (r = chips p \/ 2 * cur <= r <= 3 * cur + 100).
Proof.
  unfold calculate_bet_amount, calculate_raise_amount. cbv zeta.
  split; [|split; [|split]].
  - destruct (Z.min (chips p) (cur + 200) <? Z.max cur 50) eqn:E; [lia|].
    apply Z.ltb_ge in E. pose proof (Hr _ _ E). lia.
  - destruct (Z.min (chips p) (cur + 200) <? Z.max cur 50) eqn:E; [auto|].
    apply Z.ltb_ge in E. pose proof (Hr _ _ E). right; lia.
  - destruct (chips p <=? cur * 2); [lia|].
    destruct (Z.min (chips p) (cur * 3 + 100) <? cur * 2) eqn:E; [lia|].
    apply Z.ltb_ge in E. pose proof (Hr _ _ E). lia.
  - destruct (chips p <=? cur * 2); [auto|].
    destruct (Z.min (chips p) (cur * 3 + 100) <? cur * 2) eqn:E; [auto|].
    apply Z.ltb_ge in E. pose proof (Hr _ _ E). right; lia.
Qed.

(** X5. With [random.randint(a, b)] drawing within [[a, b]]: a bet never
    exceeds the player's chips, and is either all-in or between
    [max(current_bet, 50)] and [current_bet + 200]; a raise never exceeds
    the chips, and is either all-in or between [2 * current_bet] and
    [3 * current_bet + 100]. *)
Theorem bet_and_raise_amounts (randint : Z -> Z -> Z)
  (Hr : forall a b, a <= b -> a <= randint a b <= b) (p : player) (cur : Z) :
  let b := calculate_bet_amount randint p cur in
  let r := calculate_raise_amount randint p cur in
  b <= chips p /\ (b = chips p \/ Z.max cur 50 <= b <= cur + 200) /\
  r <= chips p /\ (r = chips p \/ 2 * cur <= r <= 3 * cur + 100).
Proof. exact (amounts_within randint Hr p cur). Qed.

Lemma bet_and_raise_amounts_witness :
  (forall a b, a <= b -> a <= (fun x _ => x) a b <= b) /\
  let p := mkPlayer "AI Player 1" 1000 [] 0 true in
  let b := calculate_bet_amount (fun x _ => x) p 100 in
  let r := calculate_raise_amount (fun x _ => x) p 100 in
  b <= chips p /\ (b = chips p \/ Z.max 100 50 <= b <= 100 + 200) /\
  r <= chips p /\ (r = chips p \/ 2 * 100 <= r <= 3 * 100 + 100).
Proof.
  split; [intros; lia|]. apply bet_and_raise_amounts. intros; lia.
Defined.

Lemma make_decision_nonneg (randint : Z -> Z -> Z)
  (Hr : forall a b, a <= b -> a <= randint a b <= b)
  (decide : player -> list card -> string) (p : player) (cc : list card) (cur : Z) :
  0 <= cur -> 0 <= chips p -> 0 <= current_bet p ->
  0 <= chips (fst (make_decision randint decide p cc cur)) /\
  0 <= current_bet (fst (make_decision randint decide p cc cur)).
Proof.
  intros Hc Hch Hcb. pose proof (amounts_within randint Hr p cur) as Hb. cbv zeta in Hb.
  unfold make_decision. destruct (negb (is_active p)); [auto|].
  repeat match goal with |- context [if ?b then _ else _] => destruct b end;
    simpl; lia.
Qed.

(** X6. With [random.randint(a, b)] drawing within [[a, b]], a betting
    round keeps every player's chips and current bet non-negative when they
    were, and never lowers the pot. *)
Theorem betting_round_nonneg (randint : Z -> Z -> Z)
  (Hr : forall a b, a <= b -> a <= randint a b <= b)
  (decide : player -> list card -> string) (g : game) :
  Forall (fun p => 0 <= chips p /\ 0 <= current_bet p) (players g) ->
  Forall (fun p => 0 <= chips p /\ 0 <= current_bet p)
         (players (betting_round randint decide g)) /\
  pot g <= pot (betting_round randint decide g).
Proof.
  intros Hall. unfold betting_round.
  assert (H : forall cc cur pot ps, 0 <= cur ->
    Forall (fun p => 0 <= chips p /\ 0 <= current_bet p) ps ->
    Forall (fun p => 0 <= chips p /\ 0 <= current_bet p)
           (fst (betting_pass randint decide cc cur pot ps)) /\
    pot <= snd (betting_pass randint decide cc cur pot ps)).
  { intros cc cur pot ps. revert cur pot.
    induction ps as [|p ps IH]; intros cur pot Hc Hps; simpl; [split; [constructor | lia]|].
    inversion Hps as [|? ? [Hch Hcb] Hrest]; subst.
    destruct (is_active p).
    - destruct (make_decision_nonneg randint Hr decide p cc cur Hc Hch Hcb) as [H1 H2].
      set (p' := fst (make_decision randint decide p cc cur)) in *.
      set (cur' := if cur <? current_bet p' then current_bet p' else cur).
      assert (Hc' : 0 <= cur') by (unfold cur'; destruct (cur <? current_bet p'); lia).
      destruct (IH cur' (pot + current_bet p') Hc' Hrest) as [IH1 IH2].
      destruct (betting_pass randint decide cc cur' (pot + current_bet p') ps).
      simpl in *. split; [constructor; auto | lia].
    - destruct (IH cur pot Hc Hrest) as [IH1 IH2].
      destruct (betting_pass randint decide cc cur pot ps).
      simpl in *. split; [constructor; auto | lia]. }
  destruct (H (community g) 0 (pot g) (players g) ltac:(lia) Hall) as [H1 H2].
  destruct (betting_pass randint decide (community g) 0 (pot g) (players g)).
  simpl in *. auto.
Qed.

Lemma betting_round_nonneg_witness :
  (forall a b, a <= b -> a <= (fun x _ => x) a b <= b) /\
  Forall (fun p => 0 <= chips p /\ 0 <= current_bet p) (players flop_after_two_bets) /\
  Forall (fun p => 0 <= chips p /\ 0 <= current_bet p)
    (players (betting_round (fun x _ => x) (fun _ _ => "bet"%string) flop_after_two_bets)) /\
  pot flop_after_two_bets <=
    pot (betting_round (fun x _ => x) (fun _ _ => "bet"%string) flop_after_two_bets).
Proof.
  assert (Hr : forall a b, a <= b -> a <= (fun x _ => x) a b <= b) by (intros; lia).
  assert (Hf : Forall (fun p => 0 <= chips p /\ 0 <= current_bet p) (players flop_after_two_bets))
    by (simpl; repeat (apply Forall_cons; [simpl; lia|]); apply Forall_nil).
  split; [exact Hr|]. split; [exact Hf|].
  apply (betting_round_nonneg (fun x _ => x) Hr); exact Hf.
Defined.

Close Scope Z_scope.

(** X7. [make_decision] keeps a player active exactly when the player was
    active and the decision is "check", "bet" or "raise": "fold" and any
    other answer fold the player. An inactive player is returned unchanged
    with "fold". *)
Theorem make_decision_activity (randint : Z -> Z -> Z)
  (decide : player -> list card -> string) (p : player) (cc : list card) (cur : Z) :
  is_active (fst (make_decision randint decide p cc cur)) =
    is_active p && (String.eqb (decide p cc) "check" || String.eqb (decide p cc) "bet" ||
                    String.eqb (decide p cc) "raise") /\
  (is_active p = false -> make_decision randint decide p cc cur = (p, "fold"%string)).
Proof.
  unfold make_decision. destruct (is_active p) eqn:Ha; simpl; [|auto].
  split; [|discriminate].
  destruct (String.eqb (decide p cc) "fold") eqn:E1.
  - apply String.eqb_eq in E1. rewrite E1. reflexivity.
  - destruct (String.eqb (decide p cc) "check"); [simpl; exact Ha|].
    destruct (String.eqb (decide p cc) "bet"); [simpl; exact Ha|].
    destruct (String.eqb (decide p cc) "raise"); simpl; [exact Ha | reflexivity].
Qed.

(** X8. When no player is active, a betting round changes nothing (players
    and pot included) and [determine_winner] returns [(None, "No winner")]
    without evaluating any hand. *)
Theorem no_active_players_round (randint : Z -> Z -> Z)
  (decide : player -> list card -> string) (g : game) :
  any_active_players g = false ->
  betting_round randint decide g = g /\
  determine_winner_result g = Some (None, "No winner"%string) /\
  determine_winner g = Some (None, []).
Proof.
  unfold any_active_players. intros Hn.
  assert (Hf : filter is_active (players g) = []).
  { induction (players g) as [|p ps IH]; simpl in *; [reflexivity|].
    apply orb_false_iff in Hn as [-> Hn]. auto. }
  assert (Hp : forall cur pot, betting_pass randint decide (community g) cur pot (players g) =
                               (players g, pot)).
  { clear Hf. induction (players g) as [|p ps IH]; intros cur pot; simpl in *; [reflexivity|].
    apply orb_false_iff in Hn as [-> Hn]. rewrite (IH Hn cur pot). reflexivity. }
  unfold betting_round, determine_winner_result, determine_winner. rewrite Hp, Hf.
  destruct g; simpl. auto.
Qed.

Lemma no_active_players_round_witness :
  let g := mkGame 2 [mkPlayer "AI Player 1" 900 [] 100 false;
                     mkPlayer "AI Player 2" 950 [] 50 false] [] [] 150 0 in
  any_active_players g = false /\
  betting_round (fun x _ => x) (fun _ _ => "bet"%string) g = g /\
  determine_winner_result g = Some (None, "No winner"%string) /\
  determine_winner g = Some (None, []).
Proof.
  cbv zeta. split; [reflexivity|]. apply no_active_players_round. reflexivity.
Defined.

(** ** The showdown *)

(** The test of [determine_winner] that replaces the best hand so far [b]
    by a hand [a]: [hand_value > best_hand_value[0]], or equal values and
    [best_ranks > best_hand_value[1]]. *)
Definition hand_beats (a b : nat * list nat) : bool :=
  (fst b <? fst a) || ((fst a =? fst b) && py_list_lt (snd b) (snd a)).

Lemma py_list_lt_irrefl (l : list nat) : py_list_lt l l = false.
Proof.
  induction l as [|x l IH]; simpl; [reflexivity|]. rewrite Nat.ltb_irrefl, Nat.eqb_refl, IH.
  reflexivity.
Qed.

Lemma py_list_lt_trans (a b c : list nat) :
  py_list_lt a b = true -> py_list_lt b c = true -> py_list_lt a c = true.
Proof.
  revert b c; induction a as [|x a IH]; intros [|y b] [|z c]; simpl; auto; try discriminate.
  rewrite !orb_true_iff, !andb_true_iff, !Nat.ltb_lt, !Nat.eqb_eq.
  intros [H1|[-> H1]] [H2|[-> H2]]; [left; lia | left; lia | left; lia |].
  right; split; [reflexivity | eapply IH; eauto].
Qed.

Lemma py_list_lt_total (a b : list nat) :
  a <> b -> py_list_lt a b = true \/ py_list_lt b a = true.
Proof.
  revert b; induction a as [|x a IH]; intros [|y b] Hne; simpl; auto; try congruence.
  rewrite !orb_true_iff, !andb_true_iff, !Nat.ltb_lt, !Nat.eqb_eq.
  destruct (Nat.lt_total x y) as [H|[<-|H]]; [left; left; exact H | | right; left; exact H].
  assert (a <> b) by congruence. destruct (IH b H) as [H'|H']; [left|right]; right; auto.
Qed.

Lemma hand_beats_irrefl (a : nat * list nat) : hand_beats a a = false.
Proof. unfold hand_beats. rewrite Nat.ltb_irrefl, Nat.eqb_refl, py_list_lt_irrefl. reflexivity. Qed.

Lemma hand_beats_trans (a b c : nat * list nat) :
  hand_beats a b = true -> hand_beats b c = true -> hand_beats a c = true.
Proof.
  destruct a as [va ta], b as [vb tb], c as [vc tc]. unfold hand_beats; simpl.
  rewrite !orb_true_iff, !andb_true_iff, !Nat.ltb_lt, !Nat.eqb_eq.
  intros [H1|[-> H1]] [H2|[-> H2]]; [left; lia | left; lia | left; lia |].
  right; split; [reflexivity | eapply py_list_lt_trans; eauto].
Qed.

Lemma hand_beats_total (a b : nat * list nat) :
  a <> b -> hand_beats a b = true \/ hand_beats b a = true.
Proof.
  destruct a as [va ta], b as [vb tb]. unfold hand_beats; simpl.
  rewrite !orb_true_iff, !andb_true_iff, !Nat.ltb_lt, !Nat.eqb_eq. intros Hne.
  destruct (Nat.lt_total va vb) as [H|[<-|H]]; [right; left; exact H | | left; left; exact H].
  assert (ta <> tb) by congruence.
  destruct (py_list_lt_total ta tb H) as [H'|H']; [right|left]; right; auto.
Qed.

Lemma hand_beats_past (m b a : nat * list nat) :
  hand_beats m b = false -> hand_beats a b = true -> hand_beats a m = true.
Proof.
  intros Hm Ha. destruct (hand_beats a m) eqn:E; [reflexivity|].
  destruct (hand_beats_total a m) as [H|H]; [intros <-; congruence | congruence |].
  rewrite (hand_beats_trans _ _ _ H Ha) in Hm. discriminate.
Qed.

(** What the scan knows of its best hand so far [(bv, bb, bp)] after the
    players [seen]: [bp]'s hand evaluates to it, every player before [bp]
    has a hand it beats, and no player after [bp] has a hand that beats
    it. *)
Definition scan_inv (cc : list card) (best : option (nat * list nat * player))
  (seen : list player) : Prop :=
  match best with
  | None => seen = []
  | Some (bv, bb, bp) =>
    evaluate_hand (hand bp) cc = Some (bv, bb) /\
    exists pre mid, seen = pre ++ bp :: mid /\
      (forall q, In q pre -> exists e, evaluate_hand (hand q) cc = Some e /\
                                       hand_beats (bv, bb) e = true) /\
      (forall q, In q mid -> exists e, evaluate_hand (hand q) cc = Some e /\
                                       hand_beats e (bv, bb) = false)
  end.

Lemma scan_inv_step (cc : list card) (best : option (nat * list nat * player))
  (seen : list player) (p : player) (hv : nat) (hb : list nat) :
  scan_inv cc best seen -> evaluate_hand (hand p) cc = Some (hv, hb) ->
  scan_inv cc
    (match best with
     | None => Some (hv, hb, p)
     | Some (bv, bb, bp) =>
       if bv <? hv then Some (hv, hb, p)
       else if (hv =? bv) && py_list_lt bb hb then Some (hv, hb, p)
       else best
     end) (seen ++ [p]).
Proof.
  intros Hinv He. destruct best as [[[bv bb] bp]|]; simpl in Hinv.
  - destruct Hinv as [Hbp [pre [mid [-> [Hpre Hmid]]]]].
    assert (Hbeat : forall e, (bv <? fst e) || ((fst e =? bv) && py_list_lt bb (snd e)) =
                              hand_beats e (bv, bb)) by reflexivity.
    assert (Hupd : hand_beats (hv, hb) (bv, bb) = true ->
                   scan_inv cc (Some (hv, hb, p)) ((pre ++ bp :: mid) ++ [p])).
    { intros Hb. simpl. split; [exact He|]. exists (pre ++ bp :: mid), []. split.
      { reflexivity. }
      split; [|contradiction].
      intros q Hq. apply in_app_or in Hq as [Hq|[<-|Hq]].
      - destruct (Hpre q Hq) as [e [Hqe Hqb]]. exists e. split; [exact Hqe|].
        eapply hand_beats_trans; eauto.
      - exists (bv, bb). auto.
      - destruct (Hmid q Hq) as [e [Hqe Hqb]]. exists e. split; [exact Hqe|].
        eapply hand_beats_past; eauto. }
    specialize (Hbeat (hv, hb)). simpl in Hbeat.
    destruct (bv <? hv) eqn:E1; [apply Hupd; rewrite <- Hbeat; reflexivity|].
    destruct ((hv =? bv) && py_list_lt bb hb) eqn:E2;
      [apply Hupd; rewrite <- Hbeat; reflexivity|].
    simpl. split; [exact Hbp|]. exists pre, (mid ++ [p]). split.
    { rewrite <- app_assoc. reflexivity. }
    split; [exact Hpre|]. intros q Hq. apply in_app_or in Hq as [Hq|[<-|[]]]; [auto|].
    exists (hv, hb). split; [exact He | rewrite <- Hbeat; reflexivity].
  - subst seen. simpl. split; [exact He|]. exists [], []. simpl. repeat split; auto; contradiction.
Qed.

Lemma showdown_scan_inv (cc : list card) (ps : list player) :
  forall best seen res evaluated,
  scan_inv cc best seen -> showdown_scan cc best ps = Some (res, evaluated) ->
  scan_inv cc res (seen ++ ps) /\ evaluated = map name ps.
Proof.
  induction ps as [|p ps IH]; intros best seen res evaluated Hinv H; simpl in H.
  - injection H as <- <-. rewrite app_nil_r. auto.
  - destruct (evaluate_hand (hand p) cc) as [[hv hb]|] eqn:He; [|discriminate].
    match type of H with context [showdown_scan cc ?b ps] =>
      destruct (showdown_scan cc b ps) as [[res' ev']|] eqn:Hs; [|discriminate] end.
    injection H as <- <-.
    destruct (IH _ _ _ _ (scan_inv_step cc best seen p hv hb Hinv He) Hs) as [H1 H2].
    rewrite <- app_assoc in H1. simpl in H1. split; [exact H1 | simpl; congruence].
Qed.

(** X9. [determine_winner] passes every active player's hand to
    [evaluate_hand] once, in table order; it names a winner exactly when
    some player is active, and the winner is an active player. *)
Theorem determine_winner_evaluates_active (g : game) (w : option player)
  (evaluated : list string) :
  determine_winner g = Some (w, evaluated) ->
  evaluated = map name (filter is_active (players g)) /\
  (w = None <-> filter is_active (players g) = []) /\
  (forall p, w = Some p -> In p (filter is_active (players g))).
Proof.
  unfold determine_winner.
  destruct (length (filter is_active (players g)) =? 0) eqn:E0.
  - apply Nat.eqb_eq, length_zero_iff_nil in E0. rewrite E0.
    intros H; injection H as <- <-. simpl. split; [reflexivity|]. split; [tauto|discriminate].
  - apply Nat.eqb_neq in E0.
    destruct (showdown_scan (community g) None (filter is_active (players g)))
      as [[best ev]|] eqn:Hs; [|discriminate].
    intros H; injection H as <- <-.
    destruct (showdown_scan_inv _ _ None [] best ev eq_refl Hs) as [Hinv ->].
    split; [reflexivity|]. simpl in Hinv.
    destruct best as [[[bv bb] bp]|]; simpl in Hinv.
    + destruct Hinv as [_ [pre [mid [Heq _]]]]. rewrite Heq. simpl.
      split; [split; [discriminate | intros H; destruct pre; discriminate]|].
      intros p Hp; injection Hp as <-. apply in_or_app; simpl; auto.
    + rewrite Hinv in E0. simpl in E0. congruence.
Qed.

Lemma determine_winner_evaluates_active_witness :
  determine_winner after_round_with_fold = Some (Some (hd (mkPlayer "" 0 [] 0 false)
    (players after_round_with_fold)), ["AI Player 1"%string]) /\
  ["AI Player 1"%string] = map name (filter is_active (players after_round_with_fold)) /\
  (Some (hd (mkPlayer "" 0 [] 0 false) (players after_round_with_fold)) = None <->
   filter is_active (players after_round_with_fold) = []) /\
  (forall p, Some (hd (mkPlayer "" 0 [] 0 false) (players after_round_with_fold)) = Some p ->
             In p (filter is_active (players after_round_with_fold))).
Proof.
  assert (H : determine_winner after_round_with_fold = Some (Some (hd (mkPlayer "" 0 [] 0 false)
    (players after_round_with_fold)), ["AI Player 1"%string])) by (vm_compute; reflexivity).
  split; [exact H|]. exact (determine_winner_evaluates_active _ _ _ H).
Defined.

(** X10. The winner [determine_winner] reports is the first active player
    whose hand no other active hand beats: every active player before it
    has a hand it beats (value, then best ranks under Python's list order),
    no active player after it has a better hand, and the hand description it
    returns is [describe_hand_value] of the winner's value. *)
Theorem determine_winner_first_best (g : game) (w : player) (label : string) :
  determine_winner_result g = Some (Some w, label) ->
  exists v tb pre post,
    evaluate_hand (hand w) (community g) = Some (v, tb) /\
    label = describe_hand_value v /\
    filter is_active (players g) = pre ++ w :: post /\
    (forall q, In q pre -> exists e, evaluate_hand (hand q) (community g) = Some e /\
                                     hand_beats (v, tb) e = true) /\
    (forall q, In q post -> exists e, evaluate_hand (hand q) (community g) = Some e /\
                                      hand_beats e (v, tb) = false).
Proof.
  unfold determine_winner_result.
  destruct (length (filter is_active (players g)) =? 0); [discriminate|].
  destruct (showdown_scan (community g) None (filter is_active (players g)))
    as [[best ev]|] eqn:Hs; [|discriminate].
  destruct (showdown_scan_inv _ _ None [] best ev eq_refl Hs) as [Hinv _].
  destruct best as [[[bv bb] bp]|]; simpl; [|discriminate].
  intros H; injection H as <- <-. simpl in Hinv.
  destruct Hinv as [He [pre [mid [Heq [Hpre Hmid]]]]].
  exists bv, bb, pre, mid. auto.
Qed.

Lemma determine_winner_first_best_witness :
  exists v tb pre post,
    evaluate_hand [(5, hearts); (9, clubs)] (community flop_after_two_bets) = Some (v, tb) /\
    "One Pair"%string = describe_hand_value v /\
    filter is_active (players flop_after_two_bets) =
      pre ++ mkPlayer "AI Player 2" 900 [(5, hearts); (9, clubs)] 100 true :: post /\
    (forall q, In q pre -> exists e, evaluate_hand (hand q) (community flop_after_two_bets) = Some e /\
                                     hand_beats (v, tb) e = true) /\
    (forall q, In q post -> exists e, evaluate_hand (hand q) (community flop_after_two_bets) = Some e /\
                                      hand_beats e (v, tb) = false).
Proof.
  apply (determine_winner_first_best flop_after_two_bets
           (mkPlayer "AI Player 2" 900 [(5, hearts); (9, clubs)] 100 true) "One Pair").
  vm_compute. reflexivity.
Defined.

(** ** Hand descriptions *)

Lemma evaluate_hand_range (h c : list card) (v : nat) (tb : list nat) :
  evaluate_hand h c = Some (v, tb) -> 1 <= v <= 9.
Proof.
  unfold evaluate_hand. cbv zeta.
  repeat match goal with
         | |- context [if ?b then _ else _] => destruct b
         | |- context [match ?m with Some _ => _ | None => _ end] => destruct m
         end; intros H; try discriminate; injection H as <- _; lia.
Qed.

(** X11. The description [determine_winner] gives a hand value is the name
    of the hand type one above the one [evaluate_hand] found (capped at the
    straight flush): a high card is described as "One Pair", one pair as
    "Two Pair", ..., four of a kind as "Straight Flush"; no evaluated hand is
    ever described as "High Card". *)
Theorem describe_hand_value_one_above (h c : list card) (v : nat) (tb : list nat) :
  evaluate_hand h c = Some (v, tb) ->
  describe_hand_value v = evaluated_hand_type (Nat.min 9 (S v)) /\
  describe_hand_value v <> "High Card"%string.
Proof.
  intros H. apply evaluate_hand_range in H.
  destruct v as [|[|[|[|[|[|[|[|[|[|v]]]]]]]]]]; try lia;
    (split; [reflexivity | discriminate]).
Qed.

Lemma describe_hand_value_one_above_witness :
  evaluate_hand [(14, hearts); (14, diamonds)]
                [(14, clubs); (14, spades); (9, hearts); (5, clubs); (2, spades)] = Some (8, [14; 9]) /\
  describe_hand_value 8 = evaluated_hand_type (Nat.min 9 (S 8)) /\
  describe_hand_value 8 <> "High Card"%string.
Proof.
  assert (H : evaluate_hand [(14, hearts); (14, diamonds)]
                [(14, clubs); (14, spades); (9, hearts); (5, clubs); (2, spades)] = Some (8, [14; 9]))
    by (vm_compute; reflexivity).
  split; [exact H | exact (describe_hand_value_one_above _ _ _ _ H)].
Defined.

(** ** Choosing a model *)

Lemma find_split {A} (f : A -> bool) (l : list A) (x : A) :
  find f l = Some x -> exists pre post, l = pre ++ x :: post /\ forall y, In y pre -> f y = false.
Proof.
  induction l as [|y l IH]; simpl; [discriminate|].
  destruct (f y) eqn:E.
  - intros H; injection H as <-. exists [], l. split; [reflexivity | contradiction].
  - intros H. destruct (IH H) as [pre [post [-> Hpre]]].
    exists (y :: pre), post. split; [reflexivity|]. intros z [<-|Hz]; auto.
Qed.

(** X12. [get_poker_compatible_model] always returns a name containing
    "llama3", "command-r" or "qwen": either the first such name in the list
    a successful ([200]) reply gives, or, when the reply lists none (or the
    request fails, or the status is not [200]), "llama3:latest". *)
Theorem get_poker_compatible_model_choice (r : models_response) :
  let m := get_poker_compatible_model r in
  poker_model m = true /\
  ((exists pre post, get_available_models r = pre ++ m :: post /\
                     forall n, In n pre -> poker_model n = false) \/
   (m = "llama3:latest"%string /\ forall n, In n (get_available_models r) -> poker_model n = false)) /\
  (forall status names, r = ModelsReply status names -> status <> 200 ->
     m = "llama3:latest"%string) /\
  (r = ModelsRequestError -> m = "llama3:latest"%string).
Proof.
  cbv zeta. unfold get_poker_compatible_model.
  destruct (find poker_model (get_available_models r)) as [m|] eqn:E.
  - destruct (find_some _ _ E) as [_ Hm]. split; [exact Hm|]. split.
    + left. apply find_split; exact E.
    + split.
      * intros status names -> Hs. simpl in E. apply Nat.eqb_neq in Hs. rewrite Hs in E.
        discriminate.
      * intros ->. discriminate.
  - split; [vm_compute; reflexivity|]. split; [right; split; [reflexivity | apply find_none; exact E]|].
    split; reflexivity.
Qed.

(** ** Letter case in the decision boundary *)

Lemma lower_char_idem (c : ascii) : lower_char (lower_char c) = lower_char c.
Proof. destruct c as [[] [] [] [] [] [] [] []]; reflexivity. Qed.

Lemma lower_idem (s : string) : lower (lower s) = lower s.
Proof. induction s as [|c s IH]; simpl; [reflexivity|]. rewrite lower_char_idem, IH. reflexivity. Qed.

(** X13. [sanitize_decision] ignores letter case: it gives the same action
    for a text and its lower-cased form, so the [.lower()] that
    [get_ai_decision] applies before calling it changes nothing. *)
Theorem sanitize_decision_case (s : string) :
  sanitize_decision (lower s) = sanitize_decision s.
Proof. unfold sanitize_decision. rewrite lower_idem. reflexivity. Qed.

(** ** The straight tie-break *)

Lemma list_eqb_eq (a b : list nat) : list_eqb a b = true <-> a = b.
Proof.
  revert b; induction a as [|x a IH]; intros [|y b]; simpl; try (split; congruence).
  rewrite andb_true_iff, Nat.eqb_eq, IH. split; [intros [-> ->]; reflexivity|].
  intros H; injection H as -> ->; auto.
Qed.

Lemma window_ok_nth (u : list nat) (i : nat) :
  window_ok u i = true -> forall j, j < 5 -> nth (i + j) u 0 = nth i u 0 + j.
Proof.
  unfold window_ok. rewrite list_eqb_eq. intros H j Hj.
  rewrite <- nth_skipn. rewrite <- (seq_nth (nth i u 0) 0 Hj), <- H, nth_firstn.
  apply Nat.ltb_lt in Hj. rewrite Hj. reflexivity.
Qed.

Lemma In_windows (u : list nat) (i : nat) : In i (windows u) -> i + 4 < length u.
Proof. unfold windows. rewrite in_seq. lia. Qed.

Lemma In_unique_ranks (ranks : list nat) (x : nat) : In x (unique_ranks ranks) <-> In x ranks.
Proof.
  unfold unique_ranks. split; intros H.
  - apply (In_uniq Nat.eqb Nat_eqb_true). eapply Permutation_in; [apply sort_asc_perm | exact H].
  - eapply Permutation_in; [apply Permutation_sym, sort_asc_perm|].
    apply (In_uniq Nat.eqb Nat_eqb_true); exact H.
Qed.

Lemma unique_ranks_NoDup (ranks : list nat) : NoDup (unique_ranks ranks).
Proof.
  unfold unique_ranks. eapply Permutation_NoDup; [apply Permutation_sym, sort_asc_perm|].
  apply (uniq_NoDup Nat.eqb Nat_eqb_true).
Qed.

Lemma slice_first_window (u : list nat) :
  4 < length u -> py_slice_rev u (Z.of_nat 0 + 4) (Z.of_nat 0 - 1) = [].
Proof.
  intros H. unfold py_slice_rev, slice_bound_neg.
  destruct (Z.of_nat 0 + 4 <? 0)%Z eqn:E1; [apply Z.ltb_lt in E1; lia|].
  destruct (Z.of_nat (length u) <=? Z.of_nat 0 + 4)%Z eqn:E2; [apply Z.leb_le in E2; lia|].
  destruct (Z.of_nat 0 - 1 <? 0)%Z eqn:E3; [|apply Z.ltb_ge in E3; lia].
  destruct (Z.of_nat 0 - 1 + Z.of_nat (length u) <? 0)%Z eqn:E4; [apply Z.ltb_lt in E4; lia|].
  replace (Z.to_nat (Z.of_nat 0 + 4 - (Z.of_nat 0 - 1 + Z.of_nat (length u)))) with 0 by lia.
  reflexivity.
Qed.

Lemma slice_later_window (u : list nat) (i x : nat) :
  1 <= i -> i + 4 < length u -> (forall j, j < 5 -> nth (i + j) u 0 = x + j) ->
  py_slice_rev u (Z.of_nat i + 4) (Z.of_nat i - 1) = [x + 4; x + 3; x + 2; x + 1; x].
Proof.
  intros Hi Hl Hn. unfold py_slice_rev, slice_bound_neg.
  destruct (Z.of_nat i + 4 <? 0)%Z eqn:E1; [apply Z.ltb_lt in E1; lia|].
  destruct (Z.of_nat (length u) <=? Z.of_nat i + 4)%Z eqn:E2; [apply Z.leb_le in E2; lia|].
  destruct (Z.of_nat i - 1 <? 0)%Z eqn:E3; [apply Z.ltb_lt in E3; lia|].
  destruct (Z.of_nat (length u) <=? Z.of_nat i - 1)%Z eqn:E4; [apply Z.leb_le in E4; lia|].
  replace (Z.to_nat (Z.of_nat i + 4 - (Z.of_nat i - 1))) with 5 by lia.
  cbn [map List.seq].
  replace (Z.to_nat (Z.of_nat i + 4 - Z.of_nat 0)) with (i + 4) by lia.
  replace (Z.to_nat (Z.of_nat i + 4 - Z.of_nat 1)) with (i + 3) by lia.
  replace (Z.to_nat (Z.of_nat i + 4 - Z.of_nat 2)) with (i + 2) by lia.
  replace (Z.to_nat (Z.of_nat i + 4 - Z.of_nat 3)) with (i + 1) by lia.
  replace (Z.to_nat (Z.of_nat i + 4 - Z.of_nat 4)) with (i + 0) by lia.
  rewrite !Hn by lia. rewrite Nat.add_0_r. reflexivity.
Qed.

(** X14. [get_best_straight] returns one of three shapes: the empty list;
    the wheel [[5; 4; 3; 2; 14]], only when 14, 2, 3, 4 and 5 all occur; or
    five consecutive ranks of the input in descending order
    [[t+4; t+3; t+2; t+1; t]]. *)
Theorem get_best_straight_shape (ranks : list nat) :
  get_best_straight ranks = [] \/
  (get_best_straight ranks = [5; 4; 3; 2; 14] /\ forall r, In r [14; 2; 3; 4; 5] -> In r ranks) \/
  exists t, get_best_straight ranks = [t + 4; t + 3; t + 2; t + 1; t] /\
            forall j, j < 5 -> In (t + j) ranks.
Proof.
  unfold get_best_straight. set (u := unique_ranks ranks).
  destruct (find (window_ok u) (windows u)) as [i|] eqn:E.
  - destruct (find_some _ _ E) as [Hi Hw]. apply In_windows in Hi.
    destruct i as [|i]; [left; apply slice_first_window; lia|].
    right; right. exists (nth (S i) u 0).
    split; [apply slice_later_window; [lia | exact Hi | apply window_ok_nth; exact Hw]|].
    intros j Hj. rewrite <- (window_ok_nth u (S i) Hw j Hj).
    apply (In_unique_ranks ranks). apply nth_In. fold u. lia.
  - destruct (has_wheel u) eqn:Hw; [|left; reflexivity].
    right; left. split; [reflexivity|]. intros r Hr.
    unfold has_wheel in Hw. rewrite forallb_forall in Hw. specialize (Hw r Hr).
    unfold rank_in in Hw. apply (mem_In Nat.eqb Nat_eqb_true) in Hw.
    apply (In_unique_ranks ranks); exact Hw.
Qed.

Lemma has_wheel_length (u : list nat) : NoDup u -> has_wheel u = true -> 5 <= length u.
Proof.
  intros Hnd Hw. unfold has_wheel in Hw. rewrite forallb_forall in Hw.
  change 5 with (length [14; 2; 3; 4; 5]). apply NoDup_incl_length.
  - repeat constructor; simpl; intuition discriminate.
  - intros r Hr. apply (mem_In Nat.eqb Nat_eqb_true), Hw, Hr.
Qed.

(** X15. [get_best_straight] returns the empty list exactly when the ranks
    hold no straight ([is_straight] is false) or when the five lowest
    distinct ranks are consecutive: the slice [unique_ranks[4:-1:-1]] of the
    run found at index 0 is empty. *)
Theorem get_best_straight_empty (ranks : list nat) :
  get_best_straight ranks = [] <->
  is_straight ranks = false \/
  firstn 5 (unique_ranks ranks) = List.seq (nth 0 (unique_ranks ranks) 0) 5.
Proof.
  pose proof (unique_ranks_NoDup ranks) as Hnd.
  unfold get_best_straight, is_straight. set (u := unique_ranks ranks) in *.
  assert (H0 : window_ok u 0 = true <-> firstn 5 u = List.seq (nth 0 u 0) 5)
    by (unfold window_ok; rewrite list_eqb_eq; reflexivity).
  assert (Hex : existsb (window_ok u) (windows u) = false <-> find (window_ok u) (windows u) = None).
  { split; intros H.
    - destruct (find (window_ok u) (windows u)) as [i|] eqn:E; [|reflexivity].
      destruct (find_some _ _ E) as [Hi Hw].
      assert (existsb (window_ok u) (windows u) = true) by (apply existsb_exists; eauto). congruence.
    - apply Bool.not_true_iff_false. rewrite existsb_exists. intros [i [Hi Hw]].
      rewrite (find_none _ _ H i Hi) in Hw. discriminate. }
  split.
  - destruct (find (window_ok u) (windows u)) as [i|] eqn:E.
    + destruct (find_some _ _ E) as [Hi Hw]. apply In_windows in Hi.
      destruct i as [|i]; [right; apply H0; exact Hw|].
      rewrite (slice_later_window u (S i) (nth (S i) u 0)); [discriminate | lia | exact Hi |].
      apply window_ok_nth; exact Hw.
    + intros Hw. left. destruct (length u <? 5); [reflexivity|].
      rewrite (proj2 Hex eq_refl). destruct (has_wheel u); [discriminate | reflexivity].
  - intros [Hs|Hf].
    + destruct (length u <? 5) eqn:Hl.
      * apply Nat.ltb_lt in Hl.
        assert (Hn : find (window_ok u) (windows u) = None).
        { unfold windows. replace (length u - 4) with 0 by (destruct (Nat.le_gt_cases 4 (length u)); [|lia];
            assert (length u <= 4) by lia; lia). reflexivity. }
        rewrite Hn. destruct (has_wheel u) eqn:Hw; [|reflexivity].
        apply has_wheel_length in Hw; [lia | exact Hnd].
      * destruct (existsb (window_ok u) (windows u)) eqn:He; [discriminate|].
        rewrite (proj1 Hex eq_refl). rewrite Hs. reflexivity.
    + assert (Hl : 4 < length u).
      { apply (f_equal (@length nat)) in Hf. rewrite length_firstn, length_seq in Hf. lia. }
      apply H0 in Hf.
      unfold windows. destruct (length u - 4) as [|k] eqn:Ek; [lia|]. simpl. rewrite Hf.
      apply slice_first_window; exact Hl.
Qed.

(** ** Order of the cards and the hand category *)

Lemma filter_perm {A} (f : A -> bool) (l l' : list A) :
  Permutation l l' -> Permutation (filter f l) (filter f l').
Proof.
  induction 1 as [|x l l' _ IH|x y l|l l' l'' _ IH1 _ IH2]; simpl.
  - constructor.
  - destruct (f x); [constructor|]; exact IH.
  - destruct (f x), (f y); try constructor; reflexivity.
  - eapply perm_trans; eauto.
Qed.

Lemma existsb_perm {A} (f : A -> bool) (l l' : list A) :
  Permutation l l' -> existsb f l = existsb f l'.
Proof.
  induction 1 as [|x l l' _ IH|x y l|l l' l'' _ IH1 _ IH2]; simpl; try congruence.
  rewrite !orb_assoc, (orb_comm (f y)). reflexivity.
Qed.

Lemma existsb_ext' {A} (f g : A -> bool) (l : list A) :
  (forall x, In x l -> f x = g x) -> existsb f l = existsb g l.
Proof.
  induction l as [|x l IH]; simpl; intros H; [reflexivity|].
  rewrite H by auto. rewrite IH by auto. reflexivity.
Qed.

Section CounterPerm.
Context {A : Type} (eqb : A -> A -> bool).
Hypothesis eqb_true : forall x y, eqb x y = true <-> x = y.

Lemma count_of_perm (x : A) (l l' : list A) :
  Permutation l l' -> count_of eqb x l = count_of eqb x l'.
Proof. intros H. unfold count_of. apply Permutation_length, filter_perm, H. Qed.

Lemma uniq_perm (l l' : list A) : Permutation l l' -> Permutation (uniq eqb l) (uniq eqb l').
Proof.
  intros H. apply NoDup_Permutation; try apply (uniq_NoDup eqb eqb_true).
  intros x. rewrite !(In_uniq eqb eqb_true). split; apply Permutation_in; [exact H|].
  apply Permutation_sym, H.
Qed.

Lemma Counter_perm (l l' : list A) :
  Permutation l l' -> Permutation (Counter eqb l) (Counter eqb l').
Proof.
  intros H. unfold Counter.
  rewrite (map_ext (fun x => (x, count_of eqb x l)) (fun x => (x, count_of eqb x l')))
    by (intros x; rewrite (count_of_perm x l l' H); reflexivity).
  apply Permutation_map, uniq_perm, H.
Qed.
End CounterPerm.

(** Strongly sorted in ascending order. *)
Fixpoint sorted_asc (l : list nat) : Prop :=
  match l with
  | [] => True
  | x :: t => Forall (fun y => x <= y) t /\ sorted_asc t
  end.

Lemma insert_asc_sorted (x : nat) (l : list nat) : sorted_asc l -> sorted_asc (insert_asc x l).
Proof.
  induction l as [|y t IH]; simpl; intros Hs; [split; constructor|].
  destruct Hs as [Hy Ht]. destruct (x <=? y) eqn:E.
  - apply Nat.leb_le in E. simpl. split; [|split; auto].
    constructor; [exact E|]. eapply Forall_impl; [|exact Hy]. simpl; intros; lia.
  - apply Nat.leb_gt in E. simpl. split; [|auto].
    apply (Permutation_Forall (Permutation_sym (insert_asc_perm x t))).
    constructor; [lia | exact Hy].
Qed.

Lemma sort_asc_sorted (l : list nat) : sorted_asc (sort_asc l).
Proof. induction l as [|x l IH]; simpl; [exact I|]. apply insert_asc_sorted, IH. Qed.

Lemma sorted_asc_perm_eq (a b : list nat) :
  sorted_asc a -> sorted_asc b -> Permutation a b -> a = b.
Proof.
  revert b; induction a as [|x a IH]; intros b Ha Hb Hp.
  - symmetry. apply Permutation_nil, Hp.
  - destruct b as [|y b]; [apply Permutation_sym, Permutation_nil in Hp; discriminate|].
    destruct Ha as [Hxa Ha], Hb as [Hyb Hb].
    assert (Hx : In x (y :: b)) by (eapply Permutation_in; [exact Hp | left; reflexivity]).
    assert (Hy : In y (x :: a))
      by (eapply Permutation_in; [apply Permutation_sym, Hp | left; reflexivity]).
    rewrite Forall_forall in Hxa, Hyb.
    assert (x = y).
    { destruct Hx as [->|Hx]; [reflexivity|]. destruct Hy as [->|Hy]; [reflexivity|].
      specialize (Hxa y Hy). specialize (Hyb x Hx). lia. }
    subst y. f_equal. apply IH; auto. eapply Permutation_cons_inv; exact Hp.
Qed.

Lemma sort_asc_perm_eq (l l' : list nat) : Permutation l l' -> sort_asc l = sort_asc l'.
Proof.
  intros H. apply sorted_asc_perm_eq; try apply sort_asc_sorted.
  eapply perm_trans; [apply sort_asc_perm|]. eapply perm_trans; [exact H|].
  apply Permutation_sym, sort_asc_perm.
Qed.

Lemma is_straight_perm (r r' : list nat) : Permutation r r' -> is_straight r = is_straight r'.
Proof.
  intros H. unfold is_straight.
  assert (Hu : unique_ranks r = unique_ranks r')
    by (apply sort_asc_perm_eq, (uniq_perm Nat.eqb Nat_eqb_true), H).
  rewrite Hu. reflexivity.
Qed.

Lemma is_straight_flush_perm (l l' : list card) :
  Permutation l l' -> is_straight_flush l = is_straight_flush l'.
Proof.
  intros H. unfold is_straight_flush.
  rewrite (existsb_perm _ _ _ (Counter_perm suit_eqb suit_eqb_true _ _ (Permutation_map snd H))).
  apply existsb_ext'. intros [s n] _. simpl. f_equal. apply is_straight_perm.
  unfold suited_ranks. apply Permutation_map, filter_perm, H.
Qed.

(** The value [evaluate_hand] gives, read off its chain of tests. *)
Definition category_of (all_cards : list card) : nat :=
  let rank_counts := Counter Nat.eqb (ranks_of all_cards) in
  let suit_counts := Counter suit_eqb (suits_of all_cards) in
  if is_straight_flush all_cards then 9
  else if is_four_of_a_kind rank_counts then 8
  else if is_full_house rank_counts then 7
  else if is_flush suit_counts then 6
  else if is_straight (ranks_of all_cards) then 5
  else if is_three_of_a_kind rank_counts then 4
  else if is_two_pair rank_counts then 3
  else if is_one_pair rank_counts then 2
  else 1.

Lemma evaluate_hand_category (h c : list card) (v : nat) (tb : list nat) :
  evaluate_hand h c = Some (v, tb) -> v = category_of (h ++ c).
Proof.
  unfold evaluate_hand, category_of. cbv zeta.
  repeat match goal with
         | |- context [if ?b then _ else _] => destruct b
         | |- context [match ?m with Some _ => _ | None => _ end] => destruct m
         end; intros H; try discriminate; injection H as <- _; reflexivity.
Qed.

Lemma values_Counter_perm {A} (eqb : A -> A -> bool) (eqb_true : forall x y, eqb x y = true <-> x = y)
  (l l' : list A) :
  Permutation l l' -> Permutation (values (Counter eqb l)) (values (Counter eqb l')).
Proof. intros H. apply Permutation_map, (Counter_perm eqb eqb_true), H. Qed.

Lemma category_of_perm (l l' : list card) : Permutation l l' -> category_of l = category_of l'.
Proof.
  intros H. unfold category_of.
  assert (Hr : Permutation (ranks_of l) (ranks_of l')) by (apply Permutation_map, H).
  assert (Hs : Permutation (suits_of l) (suits_of l')) by (apply Permutation_map, H).
  pose proof (values_Counter_perm Nat.eqb Nat_eqb_true _ _ Hr) as Hv.
  pose proof (values_Counter_perm suit_eqb suit_eqb_true _ _ Hs) as Hvs.
  rewrite (is_straight_flush_perm _ _ H), (is_straight_perm _ _ Hr).
  unfold is_four_of_a_kind, is_full_house, is_flush, is_three_of_a_kind, is_two_pair, is_one_pair.
  rewrite !mem_existsb, !(existsb_perm _ _ _ Hv), (existsb_perm _ _ _ Hvs).
  rewrite (count_of_perm Nat.eqb 2 _ _ Hv). reflexivity.
Qed.

(** X16. The hand category [evaluate_hand] returns depends only on which
    cards are held, not on their order or on how they split between hole
    and community cards (only the tie-break can change, see C3): for any
    number of cards other than 4 (where [max] of an empty sequence may
    raise), both orders are evaluated and get the same value. *)
Theorem evaluate_hand_category_order_free (h c h' c' : list card) :
  Permutation (h ++ c) (h' ++ c') -> length (h ++ c) <> 4 ->
  exists v tb tb', evaluate_hand h c = Some (v, tb) /\ evaluate_hand h' c' = Some (v, tb').
Proof.
  intros Hp Hl.
  destruct (evaluate_hand h c) as [[v tb]|] eqn:E; [|exfalso; apply (evaluate_hand_total_len h c Hl E)].
  assert (Hl' : length (h' ++ c') <> 4) by (rewrite <- (Permutation_length Hp); exact Hl).
  destruct (evaluate_hand h' c') as [[v' tb']|] eqn:E';
    [|exfalso; apply (evaluate_hand_total_len h' c' Hl' E')].
  exists v, tb, tb'. split; [reflexivity|].
  apply evaluate_hand_category in E. apply evaluate_hand_category in E'.
  rewrite E, E', (category_of_perm _ _ Hp). reflexivity.
Qed.

Lemma evaluate_hand_category_order_free_witness :
  Permutation ([(14, hearts); (14, diamonds)] ++
               [(14, clubs); (13, hearts); (13, diamonds); (12, clubs); (12, spades)])
              ([(14, hearts); (14, diamonds)] ++
               [(14, clubs); (12, clubs); (12, spades); (13, hearts); (13, diamonds)]) /\
  length ([(14, hearts); (14, diamonds)] ++
          [(14, clubs); (13, hearts); (13, diamonds); (12, clubs); (12, spades)]) <> 4 /\
  exists v tb tb',
    evaluate_hand [(14, hearts); (14, diamonds)]
                  [(14, clubs); (13, hearts); (13, diamonds); (12, clubs); (12, spades)] = Some (v, tb) /\
    evaluate_hand [(14, hearts); (14, diamonds)]
                  [(14, clubs); (12, clubs); (12, spades); (13, hearts); (13, diamonds)] = Some (v, tb').
Proof.
  assert (Hp : Permutation ([(14, hearts); (14, diamonds)] ++
               [(14, clubs); (13, hearts); (13, diamonds); (12, clubs); (12, spades)])
              ([(14, hearts); (14, diamonds)] ++
               [(14, clubs); (12, clubs); (12, spades); (13, hearts); (13, diamonds)])).
  { simpl. do 3 apply perm_skip.
    change [(13, hearts); (13, diamonds); (12, clubs); (12, spades)]
      with ([(13, hearts); (13, diamonds)] ++ [(12, clubs); (12, spades)]).
    change [(12, clubs); (12, spades); (13, hearts); (13, diamonds)]
      with ([(12, clubs); (12, spades)] ++ [(13, hearts); (13, diamonds)]).
    apply Permutation_app_comm. }
  split; [exact Hp|]. split; [simpl; lia|].
  apply evaluate_hand_category_order_free; [exact Hp | simpl; lia].
Defined.

(** ** When a deal fails *)

Lemma pop_none (cards : list card) : pop cards = None <-> cards = [].
Proof.
  unfold pop. split.
  - destruct (rev cards) eqn:E; [|discriminate]. intros _.
    rewrite <- (rev_involutive cards), E. reflexivity.
  - intros ->. reflexivity.
Qed.

Lemma deal_cards_none (n : nat) (cards : list card) :
  deal_cards n cards = None <-> length cards < n.
Proof.
  split.
  - intros H. destruct (Nat.lt_ge_cases (length cards) n) as [Hl|Hl]; [exact Hl|].
    destruct (deal_cards_some n cards Hl) as [cs [r [Hd _]]]. congruence.
  - intros Hl. destruct (deal_cards n cards) as [[cs r]|] eqn:E; [|reflexivity].
    pose proof (deal_cards_app _ _ _ _ E) as Ha. pose proof (deal_cards_length _ _ _ _ E) as Hc.
    rewrite Ha, length_app, length_rev in Hl. lia.
Qed.

(** X17. [play_flop] raises IndexError exactly when the deck holds fewer
    than 3 cards, and [play_turn] and [play_river] exactly when it is
    empty; nothing else in them can fail. *)
Theorem street_deals_fail_on_short_deck (randint : Z -> Z -> Z)
  (decide : player -> list card -> string) (g : game) :
  (play_flop randint decide g = None <-> length (deck g) < 3) /\
  (play_turn randint decide g = None <-> deck g = []) /\
  (play_river randint decide g = None <-> deck g = []).
Proof.
  unfold play_flop, play_turn, play_river. split; [|split].
  - rewrite <- deal_cards_none. destruct (deal_cards 3 (deck g)) as [[]|]; split; congruence.
  - rewrite <- pop_none. destruct (pop (deck g)) as [[]|]; split; congruence.
  - rewrite <- pop_none. destruct (pop (deck g)) as [[]|]; split; congruence.
Qed.

Lemma deal_hole_cards_none (ps : list player) (cards : list card) :
  deal_hole_cards ps cards = None <-> length cards < 2 * length ps.
Proof.
  split.
  - intros H. destruct (Nat.lt_ge_cases (length cards) (2 * length ps)) as [Hl|Hl]; [exact Hl|].
    destruct (deal_hole_cards_some ps cards Hl) as [ps' [r Hd]]. congruence.
  - intros Hl. destruct (deal_hole_cards ps cards) as [[ps' r]|] eqn:E; [|reflexivity].
    exfalso. pose proof (Permutation_length (deal_hole_cards_perm _ _ _ _ E)) as HL.
    pose proof (deal_hole_cards_dealt _ _ _ _ E) as Hf.
    assert (Hc : length (concat (map hand ps')) = 2 * length ps).
    { clear -Hf. induction Hf as [|a b l l' [h [-> Hh]] _ IH]; simpl; [reflexivity|].
      rewrite length_app, IH. simpl. lia. }
    rewrite length_app, Hc in HL. lia.
Qed.

(** X18. With [random.shuffle] keeping the 52 cards, [play_pre_flop]
    fails exactly when there are no players (the dealer rotation divides by
    zero) or more than 26 players (the deck runs out of hole cards). *)
Theorem play_pre_flop_fails (randint : Z -> Z -> Z) (decide : player -> list card -> string)
  (shuffle : list card -> list card) (g : game) :
  length (shuffle full_deck) = 52 ->
  (play_pre_flop randint decide shuffle g = None <->
   num_players g = 0 \/ 26 < length (players g)).
Proof.
  intros H52. unfold play_pre_flop, pre_flop_deal.
  destruct (num_players g =? 0) eqn:E0.
  - apply Nat.eqb_eq in E0. split; auto.
  - apply Nat.eqb_neq in E0.
    pose proof (deal_hole_cards_none (players g) (shuffle full_deck)) as Hn.
    destruct (deal_hole_cards (players g) (shuffle full_deck)) as [[ps cards]|].
    + split; [discriminate|]. intros [H|H]; [contradiction|]. exfalso. assert (Some (ps, cards) = None) by (apply Hn; lia). discriminate.
    + split; [intros _; right; destruct Hn as [Hn _]; specialize (Hn eq_refl); lia | reflexivity].
Qed.

Lemma play_pre_flop_fails_witness :
  length (full_deck) = 52 /\
  (play_pre_flop (fun x _ => x) (fun _ _ => "check"%string) (fun d => d)
     (mkGame 27 (repeat (mkPlayer "AI Player" 1000 [] 0 true) 27) [] [] 0 0) = None <->
   num_players (mkGame 27 (repeat (mkPlayer "AI Player" 1000 [] 0 true) 27) [] [] 0 0) = 0 \/
   26 < length (players (mkGame 27 (repeat (mkPlayer "AI Player" 1000 [] 0 true) 27) [] [] 0 0))).
Proof.
  split; [reflexivity|]. apply play_pre_flop_fails. reflexivity.
Defined.
